(** * SYMMETRIX kernel core: finite-field engine, stalk registry, sampler,
      allocator.

    Shallow embedding of [src/kernel/symmetrix-galois.c],
    [src/kernel/symmetrix-core.c], of the declarations and inline helpers
    of [symmetrix.h] they use and of the counters interface and bring-up
    of [src/kernel/symmetrix-msi-fpga.c], followed by the properties of
    the specification that were checked against it and by further
    properties read off the code.

    Conventions.  A C value of type [u64] is a [Z] in [0, 2^64); every
    arithmetic operation of the source is written with the wrap-around of
    the type it is evaluated in ([wrap64], [wrap128], [wrap_s64]).  Arrays
    are lists read and written by index; the three buffers of the matrix
    product are pointers into one memory, since they may overlap.
    [pr_warn]/[pr_debug] append to an explicit log. *)

From Stdlib Require Import ZArith Lia String QArith Qminmax.
From stdpp Require Import base list.

Local Open Scope Z_scope.

(* ===================================================================== *)
(** * Machine integers *)
(* ===================================================================== *)

Module Ints.

Definition U64_MOD : Z := 2 ^ 64.
Definition U128_MOD : Z := 2 ^ 128.
Definition U32_MOD : Z := 2 ^ 32.
Definition ULLONG_MAX : Z := 2 ^ 64 - 1.

(** Range predicates of the C types. *)
Definition u64 (z : Z) : Prop := 0 <= z < U64_MOD.
Definition s64 (z : Z) : Prop := - 2 ^ 63 <= z < 2 ^ 63.
Definition c_int (z : Z) : Prop := - 2 ^ 31 <= z < 2 ^ 31.

(** Result of an unsigned operation evaluated in [u64], [u128], [u32]. *)
Definition wrap64 (z : Z) : Z := z mod U64_MOD.
Definition wrap128 (z : Z) : Z := z mod U128_MOD.
Definition wrap32 (z : Z) : Z := z mod U32_MOD.

(** Conversion to [s64] (two's complement, as gcc defines it; the
    kernel is built with wrapping signed arithmetic). *)
Definition wrap_s64 (z : Z) : Z := (z + 2 ^ 63) mod U64_MOD - 2 ^ 63.

(** [for (i = lo; i < lo + n; i++) body]: the loop state after the
    last iteration. *)
Definition for_range {St : Type} (lo n : nat) (body : nat -> St -> St)
  (init : St) : St :=
  fold_left (fun st i => body i st) (seq lo n) init.

(** Reading [arr[i]]; an index outside the array is undefined behaviour
    in C and reads [0] here. *)
Definition rd (arr : list Z) (i : nat) : Z := default 0 (arr !! i).

End Ints.
Import Ints.

(* ===================================================================== *)
(** * Kernel log *)
(* ===================================================================== *)

(** What the modelled functions print with [pr_warn], [pr_debug] and
    [pr_info]; the format arguments are kept as values. *)
Inductive kmsg : Type :=
| Warn (text : string)
| TensorAllocDbg (size morton_index cache_level : Z)
| SelectCpuDbg (best_cpu : Z) (comm : string) (min_obstruction : Z)
| H2Info (h2_dimension : Z).

(** A computation that may print: its value and the messages it emitted,
    oldest first. *)
Definition Logged (A : Type) : Type := A * list kmsg.

Definition lret {A} (a : A) : Logged A := (a, []).
Definition lbind {A B} (m : Logged A) (k : A -> Logged B) : Logged B :=
  let '(a, l1) := m in let '(b, l2) := k a in (b, l1 ++ l2).
Definition pr_warn (text : string) : Logged unit := (tt, [Warn text]).
Definition pr_msg (m : kmsg) : Logged unit := (tt, [m]).

Notation "m ;;; k" := (lbind m (fun _ => k))
  (at level 100, k at level 200, right associativity).

(* ===================================================================== *)
(** * symmetrix.h *)
(* ===================================================================== *)

Definition EINVAL : Z := 22.
Definition ENOMEM : Z := 12.

Definition L1_CACHE_BYTES : Z := 64.
Definition L2_CACHE_BYTES : Z := 256 * 1024.
Definition SYMMETRIX_MAX_CPUS : nat := 256.

(** [enum symmetrix_resource_type].  The header lists [SYMMETRIX_STORAGE]
    twice; with the repeated enumerator dropped the kinds are CPU, MEMORY,
    STORAGE, FPGA, IO, NETWORK and [SYMMETRIX_RESOURCE_MAX] is 6. *)
Definition SYMMETRIX_CPU : nat := 0.
Definition SYMMETRIX_MEMORY : nat := 1.
Definition SYMMETRIX_STORAGE : nat := 2.
Definition SYMMETRIX_FPGA : nat := 3.
Definition SYMMETRIX_IO : nat := 4.
Definition SYMMETRIX_NETWORK : nat := 5.
Definition SYMMETRIX_RESOURCE_MAX : nat := 6.

(** [struct galois_element { u64 value; u64 modulus; }] *)
Record galois_element : Type := mk_elem { value : Z; modulus : Z }.

Definition u64_elem (a : galois_element) : Prop :=
  u64 (value a) /\ u64 (modulus a).

(** [struct resource_stalk]: [resources] is the capacity vector,
    [allocated] the allocation vector, both indexed by resource kind.  The
    constraint list and the spin lock are not read by the modelled
    functions. *)
Record resource_stalk : Type := mk_stalk {
  node_id : Z;
  resources : list Z;
  allocated : list Z
}.

(** [struct cohomology_state] (the two matrix pointers are never set). *)
Record cohomology_state : Type := mk_h2 {
  dimension : Z;
  computed_at : Z;
  valid : bool
}.

(** [struct galois_engine] *)
Record galois_engine : Type := mk_engine {
  prime : Z;
  crt_primes : list Z;
  num_crt_primes : Z;
  power_cache : list galois_element;
  cache_size : Z
}.

(** [struct symmetrix_system], the part the modelled functions touch. *)
Record symmetrix_system : Type := mk_system {
  cpu_stalks : list resource_stalk;
  h2_cohomology : cohomology_state
}.

(** [symmetrix_crt_primes[]] *)
Definition symmetrix_crt_primes : list Z :=
  [ 2147483647; 2147483629; 2147483587; 2147483579;
    2147483563; 2147483549; 2147483543; 2147483497 ].

(** [sizeof(symmetrix_crt_primes) / sizeof(symmetrix_crt_primes[0])], a
    [size_t]. *)
Definition SYMMETRIX_NUM_CRT_PRIMES : Z :=
  Z.of_nat (length symmetrix_crt_primes).

(* ===================================================================== *)
(** * symmetrix-galois.c *)
(* ===================================================================== *)

Module Galois.

(** [symmetrix_galois_init]; [alloc_primes] and [alloc_cache] tell
    whether the two [kmalloc] calls succeed.  Returns the error code and
    the engine. *)
Definition symmetrix_galois_init (alloc_primes alloc_cache : bool)
  (p : Z) : Z * option galois_engine :=
  if negb alloc_primes then (- ENOMEM, None)
  else if negb alloc_cache then (- ENOMEM, None)
  else (0, Some {| prime := p;
                   crt_primes := symmetrix_crt_primes;
                   num_crt_primes := SYMMETRIX_NUM_CRT_PRIMES;
                   power_cache :=
                     replicate 1024 {| value := 0; modulus := p |};
                   cache_size := 1024 |}).

(** [symmetrix_galois_add]: the sum [a.value + b.value] is a [u64]
    expression, so it wraps before [% a.modulus] is taken. *)
Definition symmetrix_galois_add (a b : galois_element)
  : Logged galois_element :=
  if negb (modulus a =? modulus b) then
    pr_warn "symmetrix: Galois add with different moduli" ;;;
    lret {| value := 0; modulus := modulus a |}
  else
    lret {| value := wrap64 (value a + value b) mod modulus a;
            modulus := modulus a |}.

(** [((u128)x * y) % m] stored into a [u64]. *)
Definition mulmod128 (x y m : Z) : Z := wrap64 (wrap128 (x * y) mod m).

(** [symmetrix_galois_mul] *)
Definition symmetrix_galois_mul (a b : galois_element)
  : Logged galois_element :=
  if negb (modulus a =? modulus b) then
    pr_warn "symmetrix: Galois mul with different moduli" ;;;
    lret {| value := 0; modulus := modulus a |}
  else
    let temp := mulmod128 (value a) (value b) (modulus a) in
    lret {| value := temp; modulus := modulus a |}.

(** The loop of [symmetrix_galois_pow].  [exp] has 64 bits, so the loop
    body runs at most 64 times; [None] is fuel exhaustion. *)
Fixpoint pow_loop (fuel : nat) (result b exp md : Z) : option Z :=
  if exp >? 0 then
    match fuel with
    | O => None
    | S fuel' =>
        let result' :=
          if Z.land exp 1 =? 1 then mulmod128 result b md else result in
        let b' := mulmod128 b b md in
        pow_loop fuel' result' b' (Z.shiftr exp 1) md
    end
  else Some result.

(** [symmetrix_galois_pow] *)
Definition symmetrix_galois_pow (base exp md : Z) : option Z :=
  pow_loop 64 1 (base mod md) exp md.

(** The six [s64] locals of [symmetrix_galois_inv]. *)
Record euclid : Type := mk_euclid {
  old_r : Z; r : Z; old_s : Z; s : Z; old_t : Z; t : Z
}.

(** One iteration of the extended Euclidean loop.  [/] on [s64]
    truncates toward zero ([Z.quot]); products and differences are
    [s64] expressions. *)
Definition inv_step (st : euclid) : euclid :=
  let quotient := wrap_s64 (Z.quot (old_r st) (r st)) in
  {| old_r := r st;
     r := wrap_s64 (old_r st - wrap_s64 (quotient * r st));
     old_s := s st;
     s := wrap_s64 (old_s st - wrap_s64 (quotient * s st));
     old_t := t st;
     t := wrap_s64 (old_t st - wrap_s64 (quotient * t st)) |}.

(** [while (r != 0) { ... }]; [None] is fuel exhaustion. *)
Fixpoint inv_loop (fuel : nat) (st : euclid) : option euclid :=
  if r st =? 0 then Some st
  else match fuel with
       | O => None
       | S fuel' => inv_loop fuel' (inv_step st)
       end.

Definition INV_FUEL : nat := 130.

(** [symmetrix_galois_inv].  [a.modulus] and [a.value] are converted
    from [u64] to [s64] on assignment to [old_r] and [r];
    [old_s += a.modulus] is evaluated in [u64] and stored back into the
    [s64]; the result [old_s] is converted to [u64]. *)
Definition symmetrix_galois_inv (a : galois_element)
  : option (Logged galois_element) :=
  if value a =? 0 then
    Some (pr_warn "symmetrix: Cannot invert zero in Galois field" ;;;
          lret {| value := 0; modulus := modulus a |})
  else
    match inv_loop INV_FUEL
            {| old_r := wrap_s64 (modulus a); r := wrap_s64 (value a);
               old_s := 0; s := 1; old_t := 1; t := 0 |} with
    | None => None
    | Some st =>
        if old_r st >? 1 then
          Some (pr_warn
                  "symmetrix: Element not invertible in Galois field" ;;;
                lret {| value := 0; modulus := modulus a |})
        else
          let old_s' :=
            if old_s st <? 0
            then wrap_s64 (wrap64 (wrap64 (old_s st) + modulus a))
            else old_s st in
          Some (lret {| value := wrap64 old_s'; modulus := modulus a |})
    end.

(** [residues[i] = value % galois_engine.crt_primes[i]] for
    [i = 0 .. num_primes - 1].  A store outside the caller's buffer is
    undefined behaviour in C; here it leaves the list unchanged. *)
Definition decompose_loop (primes : list Z) (v : Z) (num_primes : nat)
  (residues : list Z) : list Z :=
  for_range 0 num_primes
    (fun i res => <[ i := v mod rd primes i ]> res) residues.

(** [symmetrix_crt_decompose]: the return code and the residue buffer
    afterwards.  In [num_primes > SYMMETRIX_NUM_CRT_PRIMES] the [int] is
    converted to [size_t], the type of the right operand. *)
Definition symmetrix_crt_decompose (eng : galois_engine) (v : Z)
  (residues : list Z) (num_primes : Z) : Z * list Z :=
  if wrap64 num_primes >? SYMMETRIX_NUM_CRT_PRIMES then
    (- EINVAL, residues)
  else
    (0, decompose_loop (crt_primes eng) v (Z.to_nat num_primes) residues).

(** [product *= galois_engine.crt_primes[i]] over the first
    [num_primes] primes, in [u64]. *)
Definition crt_product (primes : list Z) (num_primes : nat) : Z :=
  for_range 0 num_primes
    (fun i product => wrap64 (product * rd primes i)) 1.

(** Body of the reconstruction loop for index [i]. *)
Definition reconstruct_step (primes residues : list Z) (product : Z)
  (i : nat) (sum : Z) : option Z :=
  let p := rd primes i in
  let m_i := product / p in
  match symmetrix_galois_pow (m_i mod p) (wrap64 (p - 2)) p with
  | None => None
  | Some m_i_inv =>
      let term :=
        wrap64 (wrap128 (wrap128 (rd residues i * m_i) mod product
                         * m_i_inv) mod product) in
      Some (wrap64 (sum + term) mod product)
  end.

Definition reconstruct_loop (primes residues : list Z) (product : Z)
  (num_primes : nat) : option Z :=
  for_range 0 num_primes
    (fun i acc =>
       match acc with
       | None => None
       | Some sum => reconstruct_step primes residues product i sum
       end) (Some 0).

(** [symmetrix_crt_reconstruct]: the return code and the content of
    [*result] afterwards ([result] is its content before the call);
    [None] is fuel exhaustion inside [symmetrix_galois_pow]. *)
Definition symmetrix_crt_reconstruct (eng : galois_engine)
  (residues : list Z) (num_primes : Z) (result : Z) : option (Z * Z) :=
  if wrap64 num_primes >? SYMMETRIX_NUM_CRT_PRIMES then
    Some (- EINVAL, result)
  else
    let n := Z.to_nat num_primes in
    let product := crt_product (crt_primes eng) n in
    match reconstruct_loop (crt_primes eng) residues product n with
    | None => None
    | Some sum => Some (0, sum)
    end.

End Galois.
Import Galois.

(* ===================================================================== *)
(** * symmetrix-core.c *)
(* ===================================================================== *)

(** The module parameters read by the modelled functions ([int]s). *)
Record module_params : Type := mk_params {
  max_containers : Z;
  enable_tensor_allocator : Z;
  enable_sheaf_scheduler : Z;
  galois_prime_exp : Z
}.

Definition default_params : module_params :=
  {| max_containers := 5000;
     enable_tensor_allocator := 1;
     enable_sheaf_scheduler := 1;
     galois_prime_exp := 61 |}.

(** The slab allocator as the module sees it: [kmalloc] may fail (NULL is
    [None]), [kfree] releases. *)
Class KAlloc (heap : Type) : Type := {
  kmalloc : Z -> heap -> option Z * heap;
  kfree : Z -> heap -> heap
}.

Module Core.

(** [symmetrix_morton_encode_2d(u32 x, u32 y)]: for each bit [i],
    [result |= ((u64)(x & (1U << i)) << i) | ((u64)(y & (1U << i)) << (i + 1))]. *)
Definition morton_step (x y : Z) (i : nat) (result : Z) : Z :=
  let bit := wrap32 (Z.shiftl 1 (Z.of_nat i)) in
  Z.lor result
    (Z.lor (wrap64 (Z.shiftl (Z.land x bit) (Z.of_nat i)))
           (wrap64 (Z.shiftl (Z.land y bit) (Z.of_nat i + 1)))).

Definition symmetrix_morton_encode_2d (x y : Z) : Z :=
  for_range 0 32 (morton_step x y) 0.

(** The [k] loop of [symmetrix_compute_h2_cohomology]: it compares the
    [resources] vectors of the two stalks. *)
Definition resource_diff (si sj : resource_stalk) : Z :=
  for_range 0 SYMMETRIX_RESOURCE_MAX
    (fun k diff =>
       if rd (resources si) k >? rd (resources sj) k
       then wrap64 (diff + wrap64 (rd (resources si) k - rd (resources sj) k))
       else wrap64 (diff + wrap64 (rd (resources sj) k - rd (resources si) k)))
    0.

Definition empty_stalk : resource_stalk :=
  {| node_id := 0; resources := []; allocated := [] |}.

(** [stalks[i]].  An index past the array is undefined behaviour in C;
    it reads an empty stalk here. *)
Definition stalk_at (stalks : list resource_stalk) (i : nat)
  : resource_stalk :=
  default empty_stalk (stalks !! i).

(** The [i]/[j] loops: [obstruction_sum] after the scan. *)
Definition obstruction_sum (stalks : list resource_stalk)
  (num_stalks : nat) : Z :=
  for_range 0 num_stalks
    (fun i acc =>
       for_range (S i) (num_stalks - S i)
         (fun j acc' =>
            wrap64 (acc' + resource_diff (stalk_at stalks i)
                                         (stalk_at stalks j)))
         acc)
    0.

(** [symmetrix_compute_h2_cohomology] *)
Definition symmetrix_compute_h2_cohomology (stalks : list resource_stalk)
  (num_stalks : Z) : Z :=
  if obstruction_sum stalks (Z.to_nat num_stalks) =? 0 then 0 else 1.

(** [block->cache_level] *)
Definition cache_level_of (size : Z) : Z :=
  if size <=? L1_CACHE_BYTES then 1
  else if size <=? L2_CACHE_BYTES then 2 else 3.

Definition SIZEOF_TENSOR_BLOCK : Z := 24.

(** [symmetrix_tensor_alloc]: the returned pointer (NULL is [None]),
    the heap afterwards and what was printed. *)
Definition symmetrix_tensor_alloc {heap} `{KAlloc heap}
  (cfg : module_params) (size : Z) (h : heap)
  : Logged (option Z * heap) :=
  if enable_tensor_allocator cfg =? 0 then lret (kmalloc size h)
  else
    match kmalloc SIZEOF_TENSOR_BLOCK h with
    | (None, h1) => lret (None, h1)
    | (Some block, h1) =>
        match kmalloc size h1 with
        | (None, h2) => lret (None, kfree block h2)
        | (Some ptr, h2) =>
            let morton_index :=
              wrap32 (symmetrix_morton_encode_2d
                        (Z.land size 65535)
                        (Z.land (Z.shiftr size 16) 65535)) in
            let cache_level := cache_level_of size in
            pr_msg (TensorAllocDbg size morton_index cache_level) ;;;
            lret (Some ptr, kfree block h2)
        end
    end.

(** [symmetrix_tensor_free] *)
Definition symmetrix_tensor_free {heap} `{KAlloc heap}
  (cfg : module_params) (ptr : Z) (h : heap) : heap :=
  kfree ptr h.

(** The [i] loop of [symmetrix_select_cpu]: the obstruction of one
    stalk.  [resources[i] * 80] is a [u64] product. *)
Definition stalk_obstruction (stalk : resource_stalk) : Z :=
  for_range 0 SYMMETRIX_RESOURCE_MAX
    (fun i obstruction =>
       if rd (allocated stalk) i >? wrap64 (rd (resources stalk) i * 80) / 100
       then wrap64 (obstruction
                    + wrap64 (rd (allocated stalk) i - rd (resources stalk) i))
       else obstruction)
    0.

(** [for_each_online_cpu(cpu) { ... }]: [online] lists the online CPUs
    in increasing order; the state is [(min_obstruction, best_cpu)]. *)
Definition select_scan (stalks : list resource_stalk) (online : list nat)
  (prev_cpu : Z) : Z * Z :=
  fold_left
    (fun '(min_obstruction, best_cpu) cpu =>
       let obstruction := stalk_obstruction (stalk_at stalks cpu) in
       if obstruction <? min_obstruction
       then (obstruction, Z.of_nat cpu)
       else (min_obstruction, best_cpu))
    online (ULLONG_MAX, prev_cpu).

(** [symmetrix_select_cpu]; [comm] is [p->comm]. *)
Definition symmetrix_select_cpu (cfg : module_params)
  (sys : symmetrix_system) (online : list nat) (comm : string)
  (prev_cpu : Z) : Logged Z :=
  if enable_sheaf_scheduler cfg =? 0 then lret prev_cpu
  else
    let '(min_obstruction, best_cpu) :=
      select_scan (cpu_stalks sys) online prev_cpu in
    pr_msg (SelectCpuDbg best_cpu comm min_obstruction) ;;;
    lret best_cpu.

(** One wake cycle of [cohomology_thread_fn]: the dimension is computed
    over [cpu_stalks[0 .. num_online_cpus() - 1]] and published with the
    current [jiffies]. *)
Definition cohomology_thread_cycle (sys : symmetrix_system)
  (num_online_cpus jiffies : Z) : Logged symmetrix_system :=
  let h2_dimension :=
    symmetrix_compute_h2_cohomology (cpu_stalks sys) num_online_cpus in
  pr_msg (H2Info h2_dimension) ;;;
  lret {| cpu_stalks := cpu_stalks sys;
          h2_cohomology := {| dimension := h2_dimension;
                              computed_at := jiffies;
                              valid := true |} |}.

(** [cohomology_thread_fn]: one cycle per entry of [wakes], each giving
    [num_online_cpus()] and [jiffies] at that wake-up; the thread is
    asked to stop after the last one. *)
Fixpoint cohomology_thread_fn (sys : symmetrix_system)
  (wakes : list (Z * Z)) : Logged symmetrix_system :=
  match wakes with
  | [] => lret sys
  | (n, j) :: rest =>
      lbind (cohomology_thread_cycle sys n j)
            (fun sys' => cohomology_thread_fn sys' rest)
  end.

(** The stalk [symmetrix_init] builds for CPU [cpu] (the global is
    zeroed first, so FPGA capacity and every allocation are 0). *)
Definition init_stalk (cpu : nat) : resource_stalk :=
  {| node_id := Z.of_nat cpu;
     resources := [1000; 1024 * 1024; 10 * 1024; 0; 100; 1000];
     allocated := [0; 0; 0; 0; 0; 0] |}.

End Core.
Import Core.

(** A bump allocator with a byte budget, to run the allocator model. *)
Record bump_heap : Type := mk_bump { next_ptr : Z; budget : Z }.

#[export] Instance bump_kalloc : KAlloc bump_heap := {|
  kmalloc := fun size h =>
    if size <=? budget h
    then (Some (next_ptr h),
          {| next_ptr := next_ptr h + Z.max size 1; budget := budget h - size |})
    else (None, h);
  kfree := fun _ h => h
|}.

(* ===================================================================== *)
(** * The quantities the specification speaks of *)
(* ===================================================================== *)

Module Spec.

(** The obstruction of a node as the specification words it: the sum
    over all resource kinds [k] of [max(0, allocated[k] - 0.8 * capacity[k])],
    a rational number. *)
Definition spec_obstruction (stalk : resource_stalk) : Q :=
  fold_left
    (fun acc k =>
       (acc + Qmax 0 (inject_Z (rd (allocated stalk) k)
                      - (8 # 10) * inject_Z (rd (resources stalk) k)))%Q)
    (seq 0 SYMMETRIX_RESOURCE_MAX) 0%Q.

(** Sum of [f i] for [i = lo .. lo + n - 1], in unbounded integers. *)
Definition sum_range (lo n : nat) (f : nat -> Z) : Z :=
  for_range lo n (fun i acc => acc + f i) 0.

(** Absolute per-kind difference between two vectors, summed over all
    resource kinds. *)
Definition vec_diff (u v : list Z) : Z :=
  sum_range 0 SYMMETRIX_RESOURCE_MAX (fun k => Z.abs (rd u k - rd v k)).

(** Grand total of [vec_diff] over every unordered pair of the first
    [n] stalks, for the vector selected by [vec] ([allocated] or
    [resources]). *)
Definition pair_total (vec : resource_stalk -> list Z)
  (stalks : list resource_stalk) (n : nat) : Z :=
  sum_range 0 n
    (fun i =>
       sum_range (S i) (n - S i)
         (fun j => vec_diff (vec (stalk_at stalks i))
                            (vec (stalk_at stalks j)))).

(** All of the first [n] stalks carry the same vector. *)
Definition identical_vectors (vec : resource_stalk -> list Z)
  (stalks : list resource_stalk) (n : nat) : Prop :=
  forall i j k, (i < n)%nat -> (j < n)%nat ->
    (k < SYMMETRIX_RESOURCE_MAX)%nat ->
    rd (vec (stalk_at stalks i)) k = rd (vec (stalk_at stalks j)) k.

(** Product of the first [k] table primes, in unbounded integers. *)
Definition prime_product (k : nat) : Z :=
  fold_right Z.mul 1 (take k symmetrix_crt_primes).

(** The engine after a successful [symmetrix_galois_init]. *)
Definition engine_of (p : Z) : galois_engine :=
  {| prime := p;
     crt_primes := symmetrix_crt_primes;
     num_crt_primes := SYMMETRIX_NUM_CRT_PRIMES;
     power_cache := replicate 1024 {| value := 0; modulus := p |};
     cache_size := 1024 |}.

(** Decompose, then reconstruct from the written residues. *)
Definition crt_round_trip (eng : galois_engine) (v k : Z) (buf : list Z)
  : option (Z * Z) :=
  symmetrix_crt_reconstruct eng
    (snd (symmetrix_crt_decompose eng v buf k)) k 0.

(** The published dimension after one sampler cycle. *)
Definition published_dimension (sys : symmetrix_system)
  (num_online_cpus jiffies : Z) : Z :=
  dimension (h2_cohomology
               (fst (cohomology_thread_cycle sys num_online_cpus jiffies))).

(** The iteration of [symmetrix_galois_inv] without wrap-around. *)
Definition euclid_step (st : euclid) : euclid :=
  let quotient := old_r st / r st in
  {| old_r := r st;
     r := old_r st - quotient * r st;
     old_s := s st;
     s := old_s st - quotient * s st;
     old_t := t st;
     t := old_t st - quotient * t st |}.

(** Loop invariant of the extended Euclidean algorithm run on
    [(m, v)]: the remainders decrease and keep the gcd, the Bezout
    relations hold, and the coefficients alternate in sign ([sg]) with
    magnitudes bounded through [m] and [v]. *)
Definition euclid_inv (m v : Z) (st : euclid) : Prop :=
  0 <= r st < old_r st /\ old_r st <= m /\
  Z.gcd (old_r st) (r st) = Z.gcd m v /\
  old_r st = old_s st * v + old_t st * m /\
  r st = s st * v + t st * m /\
  exists sg, (sg = 1 \/ sg = -1) /\
    0 <= - sg * old_s st <= m /\ 0 <= sg * s st /\
    (- sg * old_s st) * r st + (sg * s st) * old_r st = m /\
    0 <= sg * old_t st <= v /\ 0 <= - sg * t st /\
    (sg * old_t st) * r st + (- sg * t st) * old_r st = v.

End Spec.
Import Spec.

(* ===================================================================== *)
(** * symmetrix-galois.c: modular matrix product *)
(* ===================================================================== *)

Module Matrix.

(** Result of an [int] operation (two's complement wrap-around). *)
Definition wrap_int (z : Z) : Z := (z + 2 ^ 31) mod 2 ^ 32 - 2 ^ 31.

(** The subscript [i * n + k], an [int] expression.  A negative
    subscript is undefined behaviour in C and reads slot 0 here. *)
Definition idx (i : nat) (n : Z) (k : nat) : nat :=
  Z.to_nat (wrap_int (wrap_int (Z.of_nat i * n) + Z.of_nat k)).

(** The three arguments of the C function are pointers, and nothing
    keeps the buffers they point to apart.  Memory is therefore one
    array of 64-bit cells, and a [u64 *] is the index of the cell it
    points to: [p[i]] is cell [p + i].  A read beyond the memory gives
    0 and a write there is dropped; both are undefined behaviour in C. *)
Abbreviation memory := (list Z) (only parsing).

(** The [k] loop for one cell:
    [product = ((u128)a[i*n+k] * b[k*n+j]) % mod;
     result[i*n+j] = (result[i*n+j] + product) % mod;]
    Every read sees the writes made before it. *)
Definition matrix_cell (md : Z) (a b result : nat) (n : Z) (i j : nat)
  (mem : memory) : memory :=
  for_range 0 (Z.to_nat n)
    (fun k m =>
       let product :=
         mulmod128 (rd m (a + idx i n k)) (rd m (b + idx k n j)) md in
       <[ (result + idx i n j)%nat :=
            wrap64 (rd m (result + idx i n j) + product) mod md ]> m)
    mem.

(** [for (i = 0; i < n * n; i++) result[i] = 0;] *)
Definition matrix_zero (result : nat) (n : Z) (mem : memory) : memory :=
  for_range 0 (Z.to_nat (wrap_int (n * n)))
    (fun i m => <[ (result + i)%nat := 0 ]> m) mem.

(** [symmetrix_galois_matrix_mul]: the return code and the memory
    afterwards. *)
Definition symmetrix_galois_matrix_mul (eng : galois_engine)
  (a b result : nat) (n : Z) (mem : memory) : Z * memory :=
  let md := prime eng in
  (0, for_range 0 (Z.to_nat n)
        (fun i m =>
           for_range 0 (Z.to_nat n)
             (fun j m' => matrix_cell md a b result n i j m') m)
        (matrix_zero result n mem)).

(** Entry [(i, j)] of the product of the row-major [n x n] matrices
    stored at [a] and [b] in [mem], in unbounded integers. *)
Definition dot (mem : memory) (a b n i j : nat) : Z :=
  for_range 0 n
    (fun k acc => acc + rd mem (a + (i * n + k)) * rd mem (b + (k * n + j))) 0.

(** The running value of one cell after [K] iterations of the [k]
    loop, started from [init], with the operands read from [mem] and
    the subscripts as natural numbers. *)
Definition cell_acc (md : Z) (mem : memory) (a b n i j K : nat) (init : Z) : Z :=
  for_range 0 K
    (fun k acc =>
       wrap64 (acc + mulmod128 (rd mem (a + (i * n + k)))
                               (rd mem (b + (k * n + j))) md)
       mod md)
    init.

End Matrix.
Import Matrix.

(* ===================================================================== *)
(** * symmetrix.h: inline helpers *)
(* ===================================================================== *)

Module Header.

(** [symmetrix_is_power_of_two]: [n && !(n & (n - 1))] *)
Definition symmetrix_is_power_of_two (n : Z) : bool :=
  negb (n =? 0) && (Z.land n (wrap64 (n - 1)) =? 0).

(** [n |= n >> s] *)
Definition smear (s n : Z) : Z := Z.lor n (Z.shiftr n s).

(** [symmetrix_next_power_of_two] *)
Definition symmetrix_next_power_of_two (n : Z) : Z :=
  if n =? 0 then 1
  else
    let n1 := wrap64 (n - 1) in
    let n2 := smear 1 n1 in
    let n3 := smear 2 n2 in
    let n4 := smear 4 n3 in
    let n5 := smear 8 n4 in
    let n6 := smear 16 n5 in
    let n7 := smear 32 n6 in
    wrap64 (n7 + 1).

(** [symmetrix_fast_mod]: [a & (mod - 1)] *)
Definition symmetrix_fast_mod (a md : Z) : Z := Z.land a (wrap64 (md - 1)).

(** [symmetrix_cache_line_align]:
    [((unsigned long)addr + L1_CACHE_BYTES - 1) & ~(L1_CACHE_BYTES - 1)];
    the mask is the [int] [~63] converted to [unsigned long]. *)
Definition symmetrix_cache_line_align (addr : Z) : Z :=
  Z.land (wrap64 (wrap64 (addr + L1_CACHE_BYTES) - 1))
         (wrap64 (Z.lnot (L1_CACHE_BYTES - 1))).

End Header.
Import Header.

(* ===================================================================== *)
(** * symmetrix-core.c: module load and unload *)
(* ===================================================================== *)

Module Lifecycle.

(** What the kernel answers during [symmetrix_init]: the possible CPUs,
    whether [proc_mkdir] and [proc_create] succeed, and the error of
    [kthread_run] ([0] when the thread starts, else a negative errno). *)
Record kernel_env : Type := mk_env {
  possible_cpus : list nat;
  proc_mkdir_ok : bool;
  proc_create_ok : bool;
  kthread_run_err : Z
}.

(** The module's globals and what it has registered with the kernel:
    the [/proc/symmetrix] directory, its [status] file and the sampler
    thread. *)
Record module_state : Type := mk_state {
  symmetrix_global : symmetrix_system;
  proc_dir : bool;
  proc_status : bool;
  cohomology_thread : bool
}.

(** [memset(&symmetrix_global, 0, sizeof(symmetrix_global))] *)
Definition zero_stalk : resource_stalk :=
  {| node_id := 0;
     resources := replicate SYMMETRIX_RESOURCE_MAX 0;
     allocated := replicate SYMMETRIX_RESOURCE_MAX 0 |}.

Definition zero_system : symmetrix_system :=
  {| cpu_stalks := replicate SYMMETRIX_MAX_CPUS zero_stalk;
     h2_cohomology := {| dimension := 0; computed_at := 0; valid := false |} |}.

(** Body of [for_each_possible_cpu]: the assignments to one stalk, in
    source order. *)
Definition init_cpu_stalk (cpu : nat) (stalk : resource_stalk)
  : resource_stalk :=
  {| node_id := Z.of_nat cpu;
     resources :=
       <[ SYMMETRIX_STORAGE := 10 * 1024 ]>
         (<[ SYMMETRIX_NETWORK := 1000 ]>
            (<[ SYMMETRIX_IO := 100 ]>
               (<[ SYMMETRIX_MEMORY := 1024 * 1024 ]>
                  (<[ SYMMETRIX_CPU := 1000 ]> (resources stalk)))));
     allocated := allocated stalk |}.

Definition init_stalks (possible : list nat)
  (stalks : list resource_stalk) : list resource_stalk :=
  fold_left
    (fun st cpu => <[ cpu := init_cpu_stalk cpu (stalk_at st cpu) ]> st)
    possible stalks.

(** [proc_remove(symmetrix_proc_dir)] removes the directory with the
    entries below it. *)
Definition proc_remove (st : module_state) : module_state :=
  {| symmetrix_global := symmetrix_global st;
     proc_dir := false; proc_status := false;
     cohomology_thread := cohomology_thread st |}.

(** [symmetrix_init]: the return code and the state afterwards (the
    [pr_info]/[pr_err] lines are not modelled). *)
Definition symmetrix_init (env : kernel_env) : Z * module_state :=
  let g := {| cpu_stalks :=
                init_stalks (possible_cpus env) (cpu_stalks zero_system);
              h2_cohomology := h2_cohomology zero_system |} in
  let st0 := {| symmetrix_global := g; proc_dir := false;
                proc_status := false; cohomology_thread := false |} in
  if negb (proc_mkdir_ok env) then (- ENOMEM, st0)
  else
    let st1 := {| symmetrix_global := g; proc_dir := true;
                  proc_status := false; cohomology_thread := false |} in
    if negb (proc_create_ok env) then (- ENOMEM, proc_remove st1)
    else
      let st2 := {| symmetrix_global := g; proc_dir := true;
                    proc_status := true; cohomology_thread := false |} in
      if negb (kthread_run_err env =? 0)
      then (kthread_run_err env, proc_remove st2)
      else (0, {| symmetrix_global := g; proc_dir := true;
                  proc_status := true; cohomology_thread := true |}).

(** [symmetrix_exit] *)
Definition symmetrix_exit (st : module_state) : module_state :=
  let st1 :=
    if cohomology_thread st
    then {| symmetrix_global := symmetrix_global st;
            proc_dir := proc_dir st; proc_status := proc_status st;
            cohomology_thread := false |}
    else st in
  proc_remove st1.

End Lifecycle.
Import Lifecycle.

(* ===================================================================== *)
(** * symmetrix-msi-fpga.c: counters interface and device bring-up *)
(* ===================================================================== *)

Module Msi.

Definition MSI_STATUS_BUSY : Z := 2.
Definition MSI_STATUS_ERROR : Z := 4.
Definition MSI_HOLOGRAPHIC_BOUNDARY : Z := 8 * 1024 * 1024 * 1024 * 1024.
Definition MSI_EFFECTIVE_STORAGE : Z := 1 * 1024 * 1024 * 1024 * 1024 * 1024.
Definition MSI_AMPLIFICATION_RATIO : Z := 125000.

(** [struct msi_fpga_engine], the fields the counters interface reads
    and writes.  The four counters are [atomic64_t]. *)
Record msi_fpga_engine : Type := mk_msi {
  encoding_active : Z;
  boundary_size : Z;
  bulk_size : Z;
  amplification_ratio : Z;
  reconstructions : Z;
  cache_hits : Z;
  cache_misses : Z;
  amplification_ops : Z
}.

(** [struct msi_performance_stats] *)
Record msi_performance_stats : Type := mk_stats {
  st_reconstructions : Z;
  st_cache_hits : Z;
  st_cache_misses : Z;
  st_amplification_ops : Z;
  st_amplification_ratio : Z;
  st_effective_storage : Z;
  st_physical_storage : Z
}.

(** What the device answers during one reconstruction: the successive
    values read from the status register and the two 32-bit halves of the
    reconstructed address.  The register writes are not modelled. *)
Record device_reply : Type := mk_reply {
  statuses : list Z;
  addr_lo : Z;
  addr_hi : Z
}.

(** [do { status = readl(STATUS); } while (status & MSI_STATUS_BUSY);]
    [None] when the device is still busy after every recorded read. *)
Fixpoint wait_not_busy (sts : list Z) : option Z :=
  match sts with
  | [] => None
  | status :: rest =>
      if Z.land status MSI_STATUS_BUSY =? 0 then Some status
      else wait_not_busy rest
  end.

(** [atomic64_inc] *)
Definition atomic64_inc (c : Z) : Z := wrap_s64 (c + 1).

(** [msi_amplify_storage_access]: the returned address and the engine
    afterwards ([g] is [global_msi_engine], NULL is [None]); [None] when
    the busy-wait never ends.  The error print is not modelled. *)
Definition msi_amplify_storage_access (g : option msi_fpga_engine)
  (dev : device_reply) (logical_address size : Z)
  : option (Z * option msi_fpga_engine) :=
  match g with
  | None => Some (0, None)
  | Some engine =>
      if encoding_active engine =? 0 then Some (0, g)
      else if logical_address <? boundary_size engine then
        Some (logical_address,
              Some {| encoding_active := encoding_active engine;
                      boundary_size := boundary_size engine;
                      bulk_size := bulk_size engine;
                      amplification_ratio := amplification_ratio engine;
                      reconstructions := reconstructions engine;
                      cache_hits := atomic64_inc (cache_hits engine);
                      cache_misses := cache_misses engine;
                      amplification_ops :=
                        atomic64_inc (amplification_ops engine) |})
      else
        match wait_not_busy (statuses dev) with
        | None => None
        | Some status =>
            if negb (Z.land status MSI_STATUS_ERROR =? 0) then
              Some (0,
                    Some {| encoding_active := encoding_active engine;
                            boundary_size := boundary_size engine;
                            bulk_size := bulk_size engine;
                            amplification_ratio := amplification_ratio engine;
                            reconstructions := reconstructions engine;
                            cache_hits := cache_hits engine;
                            cache_misses := atomic64_inc (cache_misses engine);
                            amplification_ops :=
                              atomic64_inc (amplification_ops engine) |})
            else
              let physical_address :=
                Z.lor (addr_lo dev) (wrap64 (Z.shiftl (addr_hi dev) 32)) in
              Some (physical_address,
                    Some {| encoding_active := encoding_active engine;
                            boundary_size := boundary_size engine;
                            bulk_size := bulk_size engine;
                            amplification_ratio := amplification_ratio engine;
                            reconstructions :=
                              atomic64_inc (reconstructions engine);
                            cache_hits := cache_hits engine;
                            cache_misses := atomic64_inc (cache_misses engine);
                            amplification_ops :=
                              atomic64_inc (amplification_ops engine) |})
        end
  end.

(** A sequence of accesses, each with the device's answers, the address
    and the size; the returned addresses in order and the engine after
    the last one. *)
Fixpoint msi_accesses (g : option msi_fpga_engine)
  (reqs : list (device_reply * Z * Z))
  : option (list Z * option msi_fpga_engine) :=
  match reqs with
  | [] => Some ([], g)
  | (dev, logical_address, size) :: rest =>
      match msi_amplify_storage_access g dev logical_address size with
      | None => None
      | Some (addr, g') =>
          match msi_accesses g' rest with
          | None => None
          | Some (addrs, g'') => Some (addr :: addrs, g'')
          end
      end
  end.

(** [msi_get_performance_stats]: the content of [*stats] afterwards.
    The counters are read as [s64] and stored into [u64] fields, the
    ratio into a [u32] field. *)
Definition msi_get_performance_stats (g : option msi_fpga_engine)
  (stats : msi_performance_stats) : msi_performance_stats :=
  match g with
  | None => stats
  | Some engine =>
      {| st_reconstructions := wrap64 (reconstructions engine);
         st_cache_hits := wrap64 (cache_hits engine);
         st_cache_misses := wrap64 (cache_misses engine);
         st_amplification_ops := wrap64 (amplification_ops engine);
         st_amplification_ratio := wrap32 (amplification_ratio engine);
         st_effective_storage := bulk_size engine;
         st_physical_storage := boundary_size engine |}
  end.

(** The hit-rate line of [symmetrix_proc_show]:
    [if (cache_hits + cache_misses > 0)
       hit_rate = (cache_hits * 100) / (cache_hits + cache_misses);]
    [None] when the line is not printed. *)
Definition proc_show_hit_rate (stats : msi_performance_stats) : option Z :=
  if wrap64 (st_cache_hits stats + st_cache_misses stats) >? 0
  then Some (wrap64 (st_cache_hits stats * 100)
             / wrap64 (st_cache_hits stats + st_cache_misses stats))
  else None.

(** What the kernel answers during [msi_fpga_probe]: whether each
    allocation or mapping succeeds and the return code of each call
    ([0] is success). *)
Record probe_env : Type := mk_probe_env {
  kzalloc_ok : bool;
  pci_enable_device_ret : Z;
  pci_request_regions_ret : Z;
  pci_ioremap_bar_ok : bool;
  dma_set_mask_ret : Z;
  dma_alloc_coherent_ok : bool;
  request_irq_ret : Z
}.

(** What the driver holds for the device, and the two places the engine
    is published. *)
Record pci_state : Type := mk_pci {
  engine_allocated : bool;
  device_enabled : bool;
  regions_requested : bool;
  mmio_mapped : bool;
  dma_allocated : bool;
  irq_requested : bool;
  drvdata : option msi_fpga_engine;
  global_msi_engine : option msi_fpga_engine
}.

Definition set_engine_allocated (v : bool) (st : pci_state) : pci_state :=
  {| engine_allocated := v; device_enabled := device_enabled st;
     regions_requested := regions_requested st; mmio_mapped := mmio_mapped st;
     dma_allocated := dma_allocated st; irq_requested := irq_requested st;
     drvdata := drvdata st; global_msi_engine := global_msi_engine st |}.
Definition set_device_enabled (v : bool) (st : pci_state) : pci_state :=
  {| engine_allocated := engine_allocated st; device_enabled := v;
     regions_requested := regions_requested st; mmio_mapped := mmio_mapped st;
     dma_allocated := dma_allocated st; irq_requested := irq_requested st;
     drvdata := drvdata st; global_msi_engine := global_msi_engine st |}.
Definition set_regions_requested (v : bool) (st : pci_state) : pci_state :=
  {| engine_allocated := engine_allocated st;
     device_enabled := device_enabled st;
     regions_requested := v; mmio_mapped := mmio_mapped st;
     dma_allocated := dma_allocated st; irq_requested := irq_requested st;
     drvdata := drvdata st; global_msi_engine := global_msi_engine st |}.
Definition set_mmio_mapped (v : bool) (st : pci_state) : pci_state :=
  {| engine_allocated := engine_allocated st;
     device_enabled := device_enabled st;
     regions_requested := regions_requested st; mmio_mapped := v;
     dma_allocated := dma_allocated st; irq_requested := irq_requested st;
     drvdata := drvdata st; global_msi_engine := global_msi_engine st |}.
Definition set_dma_allocated (v : bool) (st : pci_state) : pci_state :=
  {| engine_allocated := engine_allocated st;
     device_enabled := device_enabled st;
     regions_requested := regions_requested st; mmio_mapped := mmio_mapped st;
     dma_allocated := v; irq_requested := irq_requested st;
     drvdata := drvdata st; global_msi_engine := global_msi_engine st |}.
Definition set_irq_requested (v : bool) (st : pci_state) : pci_state :=
  {| engine_allocated := engine_allocated st;
     device_enabled := device_enabled st;
     regions_requested := regions_requested st; mmio_mapped := mmio_mapped st;
     dma_allocated := dma_allocated st; irq_requested := v;
     drvdata := drvdata st; global_msi_engine := global_msi_engine st |}.

(** The unwinding labels of [msi_fpga_probe], each falling through to
    the next. *)
Definition err_free (st : pci_state) : pci_state :=
  set_engine_allocated false st.
Definition err_disable (st : pci_state) : pci_state :=
  err_free (set_device_enabled false st).
Definition err_release (st : pci_state) : pci_state :=
  err_disable (set_regions_requested false st).
Definition err_unmap (st : pci_state) : pci_state :=
  err_release (set_mmio_mapped false st).
Definition err_dma (st : pci_state) : pci_state :=
  err_unmap (set_dma_allocated false st).
Definition err_irq (st : pci_state) : pci_state :=
  err_dma (set_irq_requested false st).

(** The engine as [kzalloc], the counter resets and
    [msi_init_holographic_encoding] leave it. *)
Definition fresh_engine : msi_fpga_engine :=
  {| encoding_active := 1;
     boundary_size := MSI_HOLOGRAPHIC_BOUNDARY;
     bulk_size := MSI_EFFECTIVE_STORAGE;
     amplification_ratio := MSI_AMPLIFICATION_RATIO;
     reconstructions := 0; cache_hits := 0; cache_misses := 0;
     amplification_ops := 0 |}.

(** [msi_fpga_probe]: the return code and the state afterwards.  The
    two solver initialisers always return 0. *)
Definition msi_fpga_probe (env : probe_env) (st : pci_state)
  : Z * pci_state :=
  if negb (kzalloc_ok env) then (- ENOMEM, st)
  else
    let st := set_engine_allocated true st in
    if negb (pci_enable_device_ret env =? 0)
    then (pci_enable_device_ret env, err_free st)
    else
      let st := set_device_enabled true st in
      if negb (pci_request_regions_ret env =? 0)
      then (pci_request_regions_ret env, err_disable st)
      else
        let st := set_regions_requested true st in
        if negb (pci_ioremap_bar_ok env) then (- ENOMEM, err_release st)
        else
          let st := set_mmio_mapped true st in
          if negb (dma_set_mask_ret env =? 0)
          then (dma_set_mask_ret env, err_unmap st)
          else if negb (dma_alloc_coherent_ok env)
          then (- ENOMEM, err_unmap st)
          else
            let st := set_dma_allocated true st in
            if negb (request_irq_ret env =? 0)
            then (request_irq_ret env, err_dma st)
            else
              let st := set_irq_requested true st in
              (0, {| engine_allocated := engine_allocated st;
                     device_enabled := device_enabled st;
                     regions_requested := regions_requested st;
                     mmio_mapped := mmio_mapped st;
                     dma_allocated := dma_allocated st;
                     irq_requested := irq_requested st;
                     drvdata := Some fresh_engine;
                     global_msi_engine := Some fresh_engine |}).

(** [msi_fpga_remove] *)
Definition msi_fpga_remove (st : pci_state) : pci_state :=
  let st1 :=
    match drvdata st with
    | Some _ =>
        {| engine_allocated := false;
           device_enabled := device_enabled st;
           regions_requested := regions_requested st;
           mmio_mapped := false; dma_allocated := false;
           irq_requested := false;
           drvdata := drvdata st; global_msi_engine := None |}
    | None => st
    end in
  set_device_enabled false (set_regions_requested false st1).

(** No device bound: nothing held, nothing published. *)
Definition unbound : pci_state :=
  {| engine_allocated := false; device_enabled := false;
     regions_requested := false; mmio_mapped := false;
     dma_allocated := false; irq_requested := false;
     drvdata := None; global_msi_engine := None |}.

End Msi.
Import Msi.

(* ===================================================================== *)
(** * Facts about machine integers and loops *)
(* ===================================================================== *)

Section IntFacts.

Lemma wrap64_small z : u64 z -> wrap64 z = z.
Proof. unfold u64, wrap64. intros H. now apply Z.mod_small. Qed.

Lemma wrap64_add_l a b : wrap64 (wrap64 a + b) = wrap64 (a + b).
Proof. unfold wrap64. now rewrite Zplus_mod_idemp_l. Qed.

Lemma wrap64_add_r a b : wrap64 (a + wrap64 b) = wrap64 (a + b).
Proof. unfold wrap64. now rewrite Zplus_mod_idemp_r. Qed.

Lemma wrap128_small z : 0 <= z < U128_MOD -> wrap128 z = z.
Proof. unfold wrap128. intros H. now apply Z.mod_small. Qed.

Lemma wrap_s64_small z : s64 z -> wrap_s64 z = z.
Proof.
  unfold s64, wrap_s64, U64_MOD. intros H.
  rewrite Z.mod_small; lia.
Qed.

Lemma u64_mul_u128 a b : u64 a -> u64 b -> 0 <= a * b < U128_MOD.
Proof.
  unfold u64, U64_MOD, U128_MOD. intros Ha Hb.
  replace (2 ^ 128) with (2 ^ 64 * 2 ^ 64) by reflexivity. nia.
Qed.

Lemma for_range_S {St} lo n (body : nat -> St -> St) init :
  for_range lo (S n) body init
  = body (lo + n)%nat (for_range lo n body init).
Proof.
  unfold for_range. rewrite seq_S, fold_left_app. reflexivity.
Qed.

Lemma rd_lookup arr i x : arr !! i = Some x -> rd arr i = x.
Proof. unfold rd. now intros ->. Qed.

Lemma for_range_0 {St} lo (body : nat -> St -> St) init :
  for_range lo 0 body init = init.
Proof. reflexivity. Qed.

End IntFacts.

(* ===================================================================== *)
(** * Finite-field engine: add, mul, pow *)
(* ===================================================================== *)

Section GaloisArith.

Lemma mulmod128_exact x y m :
  u64 x -> u64 y -> 0 < m < U64_MOD ->
  mulmod128 x y m = (x * y) mod m.
Proof.
  intros Hx Hy Hm. unfold mulmod128.
  rewrite wrap128_small by now apply u64_mul_u128.
  apply wrap64_small. unfold u64.
  pose proof (Z.mod_pos_bound (x * y) m ltac:(lia)). lia.
Qed.

Lemma mulmod128_lt x y m : 0 < m <= U64_MOD -> 0 <= mulmod128 x y m < m.
Proof.
  intros Hm. unfold mulmod128.
  pose proof (Z.mod_pos_bound (wrap128 (x * y)) m ltac:(lia)) as Hb.
  rewrite wrap64_small by (unfold u64; lia). exact Hb.
Qed.

(** Where the 64-bit sum does not overflow, [add] is exact and reduced. *)
Lemma galois_add_no_overflow (a b : galois_element) (m : Z) :
  u64_elem a -> u64_elem b ->
  modulus a = m -> modulus b = m -> 0 < m ->
  value a + value b < U64_MOD ->
  symmetrix_galois_add a b
  = ({| value := (value a + value b) mod m; modulus := m |}, []).
Proof.
  intros [Ha _] [Hb _] Hma Hmb Hm Hsum.
  unfold symmetrix_galois_add. rewrite Hma, Hmb, Z.eqb_refl. simpl.
  unfold lret. rewrite wrap64_small; [reflexivity|].
  unfold u64 in *. lia.
Qed.

(** The value [add] returns always lies in [0, m). *)
Lemma galois_add_range (a b : galois_element) (m : Z) :
  modulus a = m -> modulus b = m -> 0 < m ->
  0 <= value (fst (symmetrix_galois_add a b)) < m.
Proof.
  intros Hma Hmb Hm.
  unfold symmetrix_galois_add. rewrite Hma, Hmb, Z.eqb_refl. simpl.
  apply Z.mod_pos_bound. lia.
Qed.

End GaloisArith.

(** C4. [add] is not exact on every pair with equal modulus: with
    [m = 2^64 - 59], [a.value = m - 1] and [b.value = 60] (both reduced)
    the 64-bit sum wraps to [0], so [add] returns value [0]; the value of
    [(a.value + b.value) mod m] is [59]. *)
Theorem galois_add_overflow_at_large_modulus :
  let m := 2 ^ 64 - 59 in
  let a := {| value := m - 1; modulus := m |} in
  let b := {| value := 60; modulus := m |} in
  u64_elem a /\ u64_elem b /\ value a < m /\ value b < m /\
  symmetrix_galois_add a b = ({| value := 0; modulus := m |}, []) /\
  (value a + value b) mod m = 59.
Proof.
  cbv zeta. unfold u64_elem, u64, U64_MOD. simpl value. simpl modulus.
  repeat split; try lia; vm_compute; reflexivity.
Qed.

(** C5. For every pair of elements with equal modulus [m > 0], [mul]
    returns exactly [(a.value * b.value) mod m] computed in unbounded
    integers, tagged with [m]: the 128-bit intermediate never wraps. *)
Theorem galois_mul_exact (a b : galois_element) (m : Z) :
  u64_elem a -> u64_elem b ->
  modulus a = m -> modulus b = m -> 0 < m ->
  symmetrix_galois_mul a b
  = ({| value := (value a * value b) mod m; modulus := m |}, []).
Proof.
  intros [Ha Hma'] [Hb _] Hma Hmb Hm.
  unfold symmetrix_galois_mul. rewrite Hma, Hmb, Z.eqb_refl. simpl.
  unfold lret. rewrite mulmod128_exact; try assumption; [reflexivity|].
  unfold u64 in *. lia.
Qed.

Lemma galois_mul_exact_witness :
  let m := 2 ^ 61 - 1 in
  let a := {| value := 2 ^ 61 - 2; modulus := m |} in
  let b := {| value := 2 ^ 60 + 12345; modulus := m |} in
  2 ^ 32 < m /\ 2 ^ 64 <= value a * value b /\
  symmetrix_galois_mul a b
  = ({| value := (value a * value b) mod m; modulus := m |}, []).
Proof.
  cbv zeta. split; [vm_compute; reflexivity|].
  split; [vm_compute; discriminate|].
  apply galois_mul_exact; unfold u64_elem, u64, U64_MOD; simpl; lia.
Defined.

(** C7. When the moduli differ, both [add] and [mul] print a warning and
    return the element with value [0] and [a]'s modulus. *)
Theorem galois_modulus_mismatch (a b : galois_element) :
  modulus a <> modulus b ->
  symmetrix_galois_add a b
  = ({| value := 0; modulus := modulus a |},
     [Warn "symmetrix: Galois add with different moduli"]) /\
  symmetrix_galois_mul a b
  = ({| value := 0; modulus := modulus a |},
     [Warn "symmetrix: Galois mul with different moduli"]).
Proof.
  intros Hne. apply Z.eqb_neq in Hne.
  unfold symmetrix_galois_add, symmetrix_galois_mul.
  rewrite Hne. simpl. split; reflexivity.
Qed.

Lemma galois_modulus_mismatch_witness :
  let a := {| value := 5; modulus := 7 |} in
  let b := {| value := 5; modulus := 11 |} in
  symmetrix_galois_add a b
  = ({| value := 0; modulus := 7 |},
     [Warn "symmetrix: Galois add with different moduli"]) /\
  symmetrix_galois_mul a b
  = ({| value := 0; modulus := 7 |},
     [Warn "symmetrix: Galois mul with different moduli"]).
Proof.
  cbv zeta.
  apply (galois_modulus_mismatch {| value := 5; modulus := 7 |}
                                 {| value := 5; modulus := 11 |}).
  simpl. lia.
Defined.

Section GaloisPow.

Lemma pow_loop_exp_zero fuel result b md :
  pow_loop fuel result b 0 md = Some result.
Proof. destruct fuel; reflexivity. Qed.

(** With a positive exponent below [2^fuel] the loop ends, and its
    result has been reduced at least once. *)
Lemma pow_loop_positive_exp md :
  0 < md <= U64_MOD ->
  forall fuel result b exp,
    0 < exp < 2 ^ Z.of_nat fuel ->
    exists res, pow_loop fuel result b exp md = Some res /\ 0 <= res < md.
Proof.
  intros Hmd. induction fuel as [|fuel IH]; intros result b exp Hexp.
  - simpl in Hexp. lia.
  - cbn [pow_loop].
    replace (exp >? 0) with true by (symmetry; apply Z.gtb_lt; lia).
    rewrite Z.shiftr_div_pow2 by lia. change (2 ^ 1) with 2.
    destruct (Z.eq_dec exp 1) as [->|Hne].
    + change (Z.land 1 1 =? 1) with true. change (1 / 2) with 0.
      cbv zeta. rewrite pow_loop_exp_zero.
      eexists; split; [reflexivity|]. now apply mulmod128_lt.
    + apply IH. rewrite Nat2Z.inj_succ, Z.pow_succ_r in Hexp by lia.
      split.
      * apply Z.div_str_pos. lia.
      * apply Z.div_lt_upper_bound; lia.
Qed.

End GaloisPow.

(** C10. For every base and modulus [m >= 1], [pow(base, 0, m)] returns
    [1] unreduced, so for [m = 1] the result is not below the modulus;
    for every exponent [e >= 1] the result is strictly below [m]. *)
Theorem galois_pow_zero_exponent_unreduced (base m : Z) :
  1 <= m < U64_MOD ->
  symmetrix_galois_pow base 0 m = Some 1 /\
  (m = 1 -> forall res, symmetrix_galois_pow base 0 m = Some res ->
            ~ res < m) /\
  (forall e, 1 <= e < U64_MOD ->
     exists res, symmetrix_galois_pow base e m = Some res /\ 0 <= res < m).
Proof.
  intros Hm. unfold symmetrix_galois_pow. split; [reflexivity|]. split.
  - intros -> res Hres. cbn in Hres. injection Hres as <-. lia.
  - intros e He. apply pow_loop_positive_exp.
    + lia.
    + change (2 ^ Z.of_nat 64) with U64_MOD. lia.
Qed.

Lemma galois_pow_zero_exponent_unreduced_witness :
  symmetrix_galois_pow 5 0 1 = Some 1 /\
  (1 = 1 -> forall res, symmetrix_galois_pow 5 0 1 = Some res -> ~ res < 1) /\
  (forall e, 1 <= e < U64_MOD ->
     exists res, symmetrix_galois_pow 5 e 1 = Some res /\ 0 <= res < 1).
Proof.
  apply (galois_pow_zero_exponent_unreduced 5 1).
  unfold U64_MOD. lia.
Defined.

(* ===================================================================== *)
(** * CRT decomposition *)
(* ===================================================================== *)

Section CrtDecompose.

Variables (primes : list Z) (v : Z).

Lemma decompose_loop_length n residues :
  length (decompose_loop primes v n residues) = length residues.
Proof.
  unfold decompose_loop. induction n as [|n IH].
  - reflexivity.
  - rewrite for_range_S, length_insert. exact IH.
Qed.

Lemma decompose_loop_written n residues i :
  (n <= length residues)%nat -> (i < n)%nat ->
  decompose_loop primes v n residues !! i = Some (v mod rd primes i).
Proof.
  unfold decompose_loop. induction n as [|n IH]; intros Hlen Hi.
  - lia.
  - rewrite for_range_S. simpl.
    destruct (decide (i = n)) as [->|Hne].
    + apply list_lookup_insert_eq.
      fold (decompose_loop primes v n residues).
      rewrite decompose_loop_length. lia.
    + rewrite list_lookup_insert_ne by congruence.
      apply IH; lia.
Qed.

Lemma decompose_loop_untouched n residues i :
  (n <= i)%nat ->
  decompose_loop primes v n residues !! i = residues !! i.
Proof.
  unfold decompose_loop. induction n as [|n IH]; intros Hi.
  - reflexivity.
  - rewrite for_range_S. simpl.
    rewrite list_lookup_insert_ne by lia.
    apply IH; lia.
Qed.

End CrtDecompose.

(** C8, as the code has it.  [crt_decompose(value, k)] fails with
    [-EINVAL] exactly when the [int] [k] is negative or exceeds the table
    size 8 (the comparison is made in [size_t]); on failure the residue
    buffer is unchanged; for [0 <= k <= 8] it succeeds, slot [i < k] holds
    [value mod p_i] and every other slot is untouched. *)
Theorem crt_decompose_guard_and_residues (p v k : Z) (residues : list Z) :
  c_int k ->
  (k <= 8 -> k <= Z.of_nat (length residues)) ->
  let out := symmetrix_crt_decompose (engine_of p) v residues k in
  (fst out = - EINVAL <-> k < 0 \/ 8 < k) /\
  (fst out = - EINVAL -> snd out = residues) /\
  (0 <= k <= 8 ->
     fst out = 0 /\
     length (snd out) = length residues /\
     (forall i, (i < Z.to_nat k)%nat ->
        snd out !! i = Some (v mod rd symmetrix_crt_primes i)) /\
     (forall i, (Z.to_nat k <= i)%nat -> snd out !! i = residues !! i)).
Proof.
  intros Hk Hbuf out. subst out. unfold symmetrix_crt_decompose.
  change SYMMETRIX_NUM_CRT_PRIMES with 8.
  unfold c_int in Hk.
  destruct (Z_lt_dec k 0) as [Hneg|Hnn].
  - assert (Hw : wrap64 k = k + 2 ^ 64).
    { unfold wrap64, U64_MOD.
      rewrite <- (Z.mod_add k 1 (2 ^ 64)) by lia.
      apply Z.mod_small. lia. }
    replace (wrap64 k >? 8) with true by (symmetry; apply Z.gtb_lt; lia).
    simpl. unfold EINVAL. repeat split; try lia; auto.
  - rewrite wrap64_small by (unfold u64, U64_MOD; lia).
    destruct (Z_gt_dec k 8) as [Hbig|Hsmall].
    + replace (k >? 8) with true by (symmetry; apply Z.gtb_lt; lia).
      simpl. unfold EINVAL. repeat split; try lia; auto.
    + replace (k >? 8) with false
        by (symmetry; rewrite Z.gtb_ltb; apply Z.ltb_ge; lia).
      simpl. split; [|split].
      * split; [unfold EINVAL; lia | lia].
      * unfold EINVAL; lia.
      * intros _. split; [reflexivity|]. split.
        { apply decompose_loop_length. }
        split.
        { intros i Hi. apply decompose_loop_written; [lia | exact Hi]. }
        { intros i Hi. now apply decompose_loop_untouched. }
Qed.

Lemma crt_decompose_guard_and_residues_witness :
  let out :=
    symmetrix_crt_decompose (engine_of (2 ^ 61 - 1)) 5000000000
      [7; 7; 7; 7; 7; 7; 7; 7] 3 in
  (fst out = - EINVAL <-> 3 < 0 \/ 8 < 3) /\
  (fst out = - EINVAL -> snd out = [7; 7; 7; 7; 7; 7; 7; 7]) /\
  (0 <= 3 <= 8 ->
     fst out = 0 /\
     length (snd out) = 8%nat /\
     (forall i, (i < Z.to_nat 3)%nat ->
        snd out !! i = Some (5000000000 mod rd symmetrix_crt_primes i)) /\
     (forall i, (Z.to_nat 3 <= i)%nat ->
        snd out !! i = [7; 7; 7; 7; 7; 7; 7; 7] !! i)).
Proof.
  apply (crt_decompose_guard_and_residues (2 ^ 61 - 1) 5000000000 3
           [7; 7; 7; 7; 7; 7; 7; 7]).
  - unfold c_int. lia.
  - simpl. lia.
Defined.

(** C8, as stated, fails at [k = -1]: the call is rejected with
    [-EINVAL] although [-1] does not exceed the table size. *)
Lemma crt_decompose_rejects_negative_count :
  ~ (fst (symmetrix_crt_decompose (engine_of (2 ^ 61 - 1)) 5
            [7; 7; 7; 7; 7; 7; 7; 7] (-1)) = - EINVAL
     <-> 8 < -1).
Proof.
  intros [H _]. assert (8 < -1) by (apply H; vm_compute; reflexivity). lia.
Qed.

(* ===================================================================== *)
(** * CRT reconstruction *)
(* ===================================================================== *)

Section CrtTwoModuli.

(** Two values below [p * q] with the same residues modulo the coprime
    [p] and [q] are equal. *)
Lemma crt2_unique p q x y :
  0 < p -> 0 < q -> Z.gcd q p = 1 ->
  0 <= x < p * q -> 0 <= y < p * q ->
  x mod p = y mod p -> x mod q = y mod q -> x = y.
Proof.
  intros Hp Hq Hg Hx Hy Hmp Hmq.
  assert (Hdp : (p | x - y)).
  { apply Z.mod_divide; [lia|].
    rewrite Zminus_mod, Hmp, Z.sub_diag. apply Z.mod_0_l. lia. }
  assert (Hdq : (q | x - y)).
  { apply Z.mod_divide; [lia|].
    rewrite Zminus_mod, Hmq, Z.sub_diag. apply Z.mod_0_l. lia. }
  destruct Hdp as [c Hc].
  assert (Hqc : (q | c)).
  { apply Z.gauss with p; [|exact Hg].
    rewrite Z.mul_comm, <- Hc. exact Hdq. }
  destruct Hqc as [d Hd]. subst c.
  assert (d = 0) by nia. subst d. lia.
Qed.

(** The CRT sum has the right residue modulo each of the two moduli. *)
Lemma crt2_sum_residue p q ip iq r0 r1 :
  0 < p -> 0 < q ->
  (q * ip) mod p = 1 ->
  ((r0 * q * ip + r1 * p * iq) mod (p * q)) mod p = r0 mod p.
Proof.
  intros Hp Hq Hinv.
  rewrite Z.mod_mod_divide by (exists q; lia).
  replace (r0 * q * ip + r1 * p * iq)
    with (r0 * (q * ip) + (r1 * iq) * p) by ring.
  rewrite Z.mod_add by lia.
  rewrite Zmult_mod, Hinv, Z.mul_1_r. apply Z.mod_mod. lia.
Qed.

End CrtTwoModuli.

Section CrtReconstruct.

Let P0 : Z := 2147483647.
Let P1 : Z := 2147483629.

(** [modinv(P1, P0)] and [modinv(P0, P1)] as the Fermat exponentiation
    of the source computes them. *)
Let I0 : Z := 119304647.
Let I1 : Z := 2028178983.

Lemma crt_pow_inverse_0 :
  symmetrix_galois_pow ((P0 * P1 / P0) mod P0) (wrap64 (P0 - 2)) P0
  = Some I0.
Proof. vm_compute. reflexivity. Qed.

Lemma crt_pow_inverse_1 :
  symmetrix_galois_pow ((P0 * P1 / P1) mod P1) (wrap64 (P1 - 2)) P1
  = Some I1.
Proof. vm_compute. reflexivity. Qed.

(** With one prime the reconstruction returns the residue itself. *)
Lemma crt_round_trip_one_prime p v buf :
  0 <= v < prime_product 1 -> (1 <= length buf)%nat ->
  crt_round_trip (engine_of p) v 1 buf = Some (0, v).
Proof.
  intros Hv Hlen. change (prime_product 1) with P0 in Hv.
  unfold crt_round_trip, symmetrix_crt_reconstruct, symmetrix_crt_decompose.
  change (wrap64 1 >? SYMMETRIX_NUM_CRT_PRIMES) with false. cbv iota.
  cbn [snd crt_primes engine_of]. change (Z.to_nat 1) with 1%nat.
  change (crt_product symmetrix_crt_primes 1) with P0.
  unfold reconstruct_loop. rewrite for_range_S, for_range_0.
  cbn [Nat.add]. unfold reconstruct_step.
  change (rd symmetrix_crt_primes 0) with P0.
  replace (symmetrix_galois_pow ((P0 / P0) mod P0) (wrap64 (P0 - 2)) P0)
    with (Some 1) by (vm_compute; reflexivity).
  rewrite (rd_lookup _ _ _ (decompose_loop_written _ v 1 buf 0 Hlen ltac:(lia))).
  change (rd symmetrix_crt_primes 0) with P0.
  change (P0 / P0) with 1. rewrite !Z.mul_1_r.
  assert (Hr : v mod P0 = v) by (apply Z.mod_small; lia).
  rewrite Hr.
  assert (H128 : wrap128 v = v)
    by (apply wrap128_small; unfold U128_MOD, P0 in *; lia).
  rewrite H128, Hr, H128, Hr.
  assert (H64 : wrap64 v = v)
    by (apply wrap64_small; unfold u64, U64_MOD, P0 in *; lia).
  rewrite H64. change (0 + v) with v. rewrite H64, Hr. reflexivity.
Qed.

(** A reconstruction term whose operands fit: none of the wide or
    native intermediates wraps. *)
Lemma crt_term_exact res m inv P :
  0 <= res < 2 ^ 31 -> 0 <= m < 2 ^ 31 -> 0 <= inv < 2 ^ 31 ->
  0 < P < 2 ^ 62 -> res * m < P ->
  wrap64 (wrap128 (wrap128 (res * m) mod P * inv) mod P)
  = (res * m * inv) mod P.
Proof.
  intros Hr Hm Hi HP Hrm.
  assert (H0 : 0 <= res * m) by nia.
  rewrite (wrap128_small (res * m)) by (unfold U128_MOD; lia).
  rewrite (Z.mod_small (res * m) P) by lia.
  assert (H1 : 0 <= res * m * inv < 2 ^ 62 * 2 ^ 31) by nia.
  rewrite wrap128_small by (unfold U128_MOD; lia).
  apply wrap64_small. unfold u64, U64_MOD.
  pose proof (Z.mod_pos_bound (res * m * inv) P ltac:(lia)). lia.
Qed.

(** With two primes the product and every intermediate fit, and the
    reconstruction returns the decomposed value. *)
Lemma crt_round_trip_two_primes p v buf :
  0 <= v < prime_product 2 -> (2 <= length buf)%nat ->
  crt_round_trip (engine_of p) v 2 buf = Some (0, v).
Proof.
  intros Hv Hlen. change (prime_product 2) with (P0 * P1) in Hv.
  unfold crt_round_trip, symmetrix_crt_reconstruct, symmetrix_crt_decompose.
  change (wrap64 2 >? SYMMETRIX_NUM_CRT_PRIMES) with false. cbv iota.
  cbn [snd crt_primes engine_of]. change (Z.to_nat 2) with 2%nat.
  change (crt_product symmetrix_crt_primes 2) with (P0 * P1).
  unfold reconstruct_loop. rewrite !for_range_S, for_range_0.
  cbn [Nat.add]. unfold reconstruct_step.
  change (rd symmetrix_crt_primes 0) with P0.
  change (rd symmetrix_crt_primes 1) with P1.
  rewrite crt_pow_inverse_0, crt_pow_inverse_1.
  rewrite (rd_lookup _ _ _ (decompose_loop_written _ v 2 buf 0 Hlen ltac:(lia))).
  rewrite (rd_lookup _ _ _ (decompose_loop_written _ v 2 buf 1 Hlen ltac:(lia))).
  change (rd symmetrix_crt_primes 0) with P0.
  change (rd symmetrix_crt_primes 1) with P1.
  change (P0 * P1 / P0) with P1. change (P0 * P1 / P1) with P0.
  pose proof (Z.mod_pos_bound v P0 ltac:(unfold P0; lia)) as Hr0.
  pose proof (Z.mod_pos_bound v P1 ltac:(unfold P1; lia)) as Hr1.
  set (r0 := v mod P0) in *. set (r1 := v mod P1) in *.
  rewrite (crt_term_exact r0 P1 I0 (P0 * P1))
    by (unfold P0, P1, I0 in *; nia).
  rewrite (crt_term_exact r1 P0 I1 (P0 * P1))
    by (unfold P0, P1, I1 in *; nia).
  pose proof (Z.mod_pos_bound (r0 * P1 * I0) (P0 * P1)
                ltac:(unfold P0, P1; lia)) as Ht0.
  pose proof (Z.mod_pos_bound (r1 * P0 * I1) (P0 * P1)
                ltac:(unfold P0, P1; lia)) as Ht1.
  set (t0 := (r0 * P1 * I0) mod (P0 * P1)) in *.
  set (t1 := (r1 * P0 * I1) mod (P0 * P1)) in *.
  change (0 + t0) with t0.
  rewrite (wrap64_small t0) by (unfold u64, U64_MOD, P0, P1 in *; lia).
  rewrite (Z.mod_small t0) by lia.
  rewrite (wrap64_small (t0 + t1))
    by (unfold u64, U64_MOD, P0, P1 in *; lia).
  subst t0 t1. rewrite <- Zplus_mod.
  f_equal. f_equal.
  apply (crt2_unique P0 P1); try (unfold P0, P1; lia).
  - vm_compute. reflexivity.
  - apply Z.mod_pos_bound. unfold P0, P1. lia.
  - rewrite crt2_sum_residue; try (unfold P0, P1; lia).
    + subst r0. apply Z.mod_mod. unfold P0. lia.
    + vm_compute. reflexivity.
  - replace (r0 * P1 * I0 + r1 * P0 * I1)
      with (r1 * P0 * I1 + r0 * P1 * I0) by ring.
    rewrite (Z.mul_comm P0 P1).
    rewrite crt2_sum_residue; try (unfold P0, P1; lia).
    + subst r1. apply Z.mod_mod. unfold P1. lia.
    + vm_compute. reflexivity.
Qed.

End CrtReconstruct.

(** C2. The round trip fails with three primes: the 64-bit [product]
    wraps (the product of the first three table primes exceeds [2^64]),
    and decomposing [v = 1] and reconstructing it yields
    [779631916599616357]. *)
Theorem crt_round_trip_fails_with_three_primes :
  1 < prime_product 3 /\
  U64_MOD < prime_product 3 /\
  crt_product symmetrix_crt_primes 3 = prime_product 3 mod U64_MOD /\
  snd (symmetrix_crt_decompose (engine_of (2 ^ 61 - 1)) 1
         [0; 0; 0; 0; 0; 0; 0; 0] 3) = [1; 1; 1; 0; 0; 0; 0; 0] /\
  crt_round_trip (engine_of (2 ^ 61 - 1)) 1 3 [0; 0; 0; 0; 0; 0; 0; 0]
  = Some (0, 779631916599616357).
Proof.
  repeat split; vm_compute; reflexivity.
Qed.

(* ===================================================================== *)
(** * Obstruction-based CPU selection *)
(* ===================================================================== *)

(** C1. The obstruction the selector computes is not the overflow above
    the 80% threshold.  For a node with capacity 1000 and allocation 900
    of the first kind (nothing else), the guard [900 > 800] holds and the
    code adds [allocated - resources = 900 - 1000] in [u64], that is
    [2^64 - 100]; the sum of [max(0, allocated - 0.8 * capacity)] is
    [100].  Next to a node with allocation 2000 of the same capacity
    (code: 1000, specification: 1200) the selector therefore picks the
    overloaded node. *)
Theorem select_obstruction_subtracts_full_capacity :
  let busy := {| node_id := 0;
                 resources := [1000; 0; 0; 0; 0; 0];
                 allocated := [900; 0; 0; 0; 0; 0] |} in
  let overloaded := {| node_id := 1;
                       resources := [1000; 0; 0; 0; 0; 0];
                       allocated := [2000; 0; 0; 0; 0; 0] |} in
  let sys := {| cpu_stalks := [busy; overloaded];
                h2_cohomology := {| dimension := 0; computed_at := 0;
                                    valid := false |} |} in
  stalk_obstruction busy = 2 ^ 64 - 100 /\
  (spec_obstruction busy == 100)%Q /\
  stalk_obstruction overloaded = 1000 /\
  (spec_obstruction overloaded == 1200)%Q /\
  symmetrix_select_cpu default_params sys [0%nat; 1%nat] "task" 0
  = (1, [SelectCpuDbg 1 "task" 1000]).
Proof.
  cbv zeta. repeat split; vm_compute; reflexivity.
Qed.

(* ===================================================================== *)
(** * Cohomology sampler *)
(* ===================================================================== *)

Section Sampler.

Lemma sum_range_S lo n f :
  sum_range lo (S n) f = sum_range lo n f + f (lo + n)%nat.
Proof. unfold sum_range. now rewrite for_range_S. Qed.

(** A wrapping accumulation is the wrapped exact sum. *)
Lemma for_range_wrap_sum lo n f (body : nat -> Z -> Z) :
  (forall i acc, body i (wrap64 acc) = wrap64 (acc + f i)) ->
  forall a, for_range lo n body (wrap64 a)
            = wrap64 (a + sum_range lo n f).
Proof.
  intros Hbody a. induction n as [|n IH].
  - rewrite for_range_0. unfold sum_range. rewrite for_range_0.
    now rewrite Z.add_0_r.
  - rewrite for_range_S, IH, Hbody, sum_range_S.
    now rewrite Z.add_assoc.
Qed.

Lemma sum_range_nonneg lo n f :
  (forall i, (lo <= i < lo + n)%nat -> 0 <= f i) ->
  0 <= sum_range lo n f.
Proof.
  intros H. induction n as [|n IH].
  - unfold sum_range. rewrite for_range_0. lia.
  - rewrite sum_range_S.
    assert (0 <= sum_range lo n f) by (apply IH; intros; apply H; lia).
    assert (0 <= f (lo + n)%nat) by (apply H; lia). lia.
Qed.

(** A sum of non-negative terms is zero exactly when every term is. *)
Lemma sum_range_zero lo n f :
  (forall i, (lo <= i < lo + n)%nat -> 0 <= f i) ->
  sum_range lo n f = 0 <->
  (forall i, (lo <= i < lo + n)%nat -> f i = 0).
Proof.
  intros Hnn. induction n as [|n IH].
  - split; [intros _ i Hi; lia | reflexivity].
  - rewrite sum_range_S.
    assert (H1 : 0 <= sum_range lo n f)
      by (apply sum_range_nonneg; intros; apply Hnn; lia).
    assert (H2 : 0 <= f (lo + n)%nat) by (apply Hnn; lia).
    assert (IH' := IH ltac:(intros; apply Hnn; lia)).
    split.
    + intros Hs i Hi.
      destruct (decide (i = (lo + n)%nat)) as [->|Hne]; [lia|].
      apply IH'; lia.
    + intros Hall.
      assert (sum_range lo n f = 0) by (apply IH'; intros; apply Hall; lia).
      assert (f (lo + n)%nat = 0) by (apply Hall; lia). lia.
Qed.

Lemma resource_diff_exact si sj :
  resource_diff si sj = wrap64 (vec_diff (resources si) (resources sj)).
Proof.
  unfold resource_diff, vec_diff.
  change 0 with (wrap64 0) at 1.
  rewrite (for_range_wrap_sum _ _
             (fun k => Z.abs (rd (resources si) k - rd (resources sj) k))).
  - reflexivity.
  - intros k acc. cbv beta.
    destruct (Z.gtb_spec (rd (resources si) k) (rd (resources sj) k)).
    + rewrite wrap64_add_r, wrap64_add_l. f_equal. lia.
    + rewrite wrap64_add_r, wrap64_add_l. f_equal. lia.
Qed.

Lemma vec_diff_nonneg u v : 0 <= vec_diff u v.
Proof. apply sum_range_nonneg. intros. lia. Qed.

Lemma vec_diff_zero u v :
  vec_diff u v = 0 <->
  (forall k, (k < SYMMETRIX_RESOURCE_MAX)%nat -> rd u k = rd v k).
Proof.
  unfold vec_diff. rewrite sum_range_zero by (intros; lia).
  split; intros H k Hk.
  - specialize (H k ltac:(lia)). lia.
  - specialize (H k ltac:(lia)). lia.
Qed.

(** The code's accumulator is the exact grand total over the
    [resources] vectors, reduced modulo [2^64]. *)
Lemma obstruction_sum_exact stalks n :
  obstruction_sum stalks n = wrap64 (pair_total resources stalks n).
Proof.
  unfold obstruction_sum, pair_total.
  change 0 with (wrap64 0) at 1.
  rewrite (for_range_wrap_sum _ _
    (fun i => sum_range (S i) (n - S i)
                (fun j => vec_diff (resources (stalk_at stalks i))
                                   (resources (stalk_at stalks j))))).
  - reflexivity.
  - intros i acc. cbv beta.
    apply for_range_wrap_sum. intros j acc'.
    rewrite resource_diff_exact, wrap64_add_r, wrap64_add_l.
    reflexivity.
Qed.

Lemma pair_total_nonneg vec stalks n : 0 <= pair_total vec stalks n.
Proof.
  apply sum_range_nonneg. intros i _.
  apply sum_range_nonneg. intros j _. apply vec_diff_nonneg.
Qed.

Lemma pair_total_zero vec stalks n :
  pair_total vec stalks n = 0 <-> identical_vectors vec stalks n.
Proof.
  unfold pair_total.
  rewrite sum_range_zero
    by (intros; apply sum_range_nonneg; intros; apply vec_diff_nonneg).
  split.
  - intros H.
    assert (Hlt : forall i j k, (i < j)%nat -> (j < n)%nat ->
              (k < SYMMETRIX_RESOURCE_MAX)%nat ->
              rd (vec (stalk_at stalks i)) k = rd (vec (stalk_at stalks j)) k).
    { intros i j k Hij Hj Hk.
      specialize (H i ltac:(lia)).
      rewrite sum_range_zero in H by (intros; apply vec_diff_nonneg).
      specialize (H j ltac:(lia)).
      rewrite vec_diff_zero in H. now apply H. }
    intros i j k Hi Hj Hk.
    destruct (lt_eq_lt_dec i j) as [[Hij|Heq]|Hji].
    + now apply Hlt.
    + now subst j.
    + symmetry. now apply Hlt.
  - intros Hid i Hi.
    apply sum_range_zero; [intros; apply vec_diff_nonneg|].
    intros j Hj. apply vec_diff_zero. intros k Hk.
    apply Hid; lia.
Qed.

End Sampler.

(** C3, as the code has it.  The sampler compares the [resources]
    (capacity) vectors of the online-node stalks, not their [allocated]
    vectors.  The stalks are the [num_online_cpus()] first ones of the
    registry of [SYMMETRIX_MAX_CPUS] stalks, so [num_online_cpus()] is at
    most [SYMMETRIX_MAX_CPUS].  Whenever the grand total of absolute
    per-kind differences of those vectors over all unordered pairs is
    below [2^64], the published dimension is 0 if and only if that total
    is zero and 1 otherwise; it is 0 when all these stalks carry
    identical [resources] vectors and 1 when some kind differs between
    some pair. *)
Theorem h2_dimension_compares_resources
  (sys : symmetrix_system) (num_online_cpus jiffies : Z) :
  length (cpu_stalks sys) = SYMMETRIX_MAX_CPUS ->
  num_online_cpus <= Z.of_nat SYMMETRIX_MAX_CPUS ->
  let n := Z.to_nat num_online_cpus in
  let total := pair_total resources (cpu_stalks sys) n in
  let dim := published_dimension sys num_online_cpus jiffies in
  total < U64_MOD ->
  (dim = 0 <-> total = 0) /\
  (total <> 0 -> dim = 1) /\
  (identical_vectors resources (cpu_stalks sys) n -> dim = 0) /\
  ((exists i j k, (i < n)%nat /\ (j < n)%nat /\
                  (k < SYMMETRIX_RESOURCE_MAX)%nat /\
                  rd (resources (stalk_at (cpu_stalks sys) i)) k
                  <> rd (resources (stalk_at (cpu_stalks sys) j)) k) ->
   dim = 1).
Proof.
  intros _ _ n total dim Hlt.
  assert (Hdim : dim = if total =? 0 then 0 else 1).
  { subst dim. unfold published_dimension, cohomology_thread_cycle.
    cbn [fst lbind pr_msg lret h2_cohomology dimension].
    unfold symmetrix_compute_h2_cohomology.
    rewrite obstruction_sum_exact. fold n. fold total.
    rewrite wrap64_small; [reflexivity|].
    pose proof (pair_total_nonneg resources (cpu_stalks sys) n).
    unfold u64. fold total in H. lia. }
  assert (Hz : total = 0 <-> identical_vectors resources (cpu_stalks sys) n)
    by apply pair_total_zero.
  rewrite Hdim. destruct (Z.eqb_spec total 0) as [He|Hne].
  - repeat split; auto; try lia.
    intros (i & j & k & Hi & Hj & Hk & Hd).
    exfalso. apply Hd. apply Hz; assumption.
  - repeat split; auto; try lia.
    + intros Hid. exfalso. apply Hne. now apply Hz.
Qed.

Lemma h2_dimension_compares_resources_witness :
  let sys := {| cpu_stalks :=
                  [ {| node_id := 0;
                       resources := [1000; 1048576; 10240; 0; 100; 1000];
                       allocated := [0; 0; 0; 0; 0; 0] |};
                    {| node_id := 1;
                       resources := [1000; 1048576; 10240; 0; 100; 2000];
                       allocated := [0; 0; 0; 0; 0; 0] |} ]
                  ++ replicate 254
                       {| node_id := 0; resources := [0; 0; 0; 0; 0; 0];
                          allocated := [0; 0; 0; 0; 0; 0] |};
                h2_cohomology := {| dimension := 0; computed_at := 0;
                                    valid := false |} |} in
  length (cpu_stalks sys) = SYMMETRIX_MAX_CPUS /\
  pair_total resources (cpu_stalks sys) 2 = 1000 /\
  published_dimension sys 2 300 = 1.
Proof.
  cbv zeta. split; [vm_compute; reflexivity|].
  split; [vm_compute; reflexivity|].
  refine (proj1 (proj2 (h2_dimension_compares_resources _ 2 300 _ _ _)) _).
  - vm_compute. reflexivity.
  - vm_compute. discriminate.
  - vm_compute. reflexivity.
  - vm_compute. discriminate.
Defined.

(** C3, as stated, fails: with two CPUs online, two stalks with equal
    capacities and different allocations are given dimension 0 although
    the grand total over their [allocated] vectors is 900. *)
Lemma h2_dimension_ignores_allocated :
  let sys := {| cpu_stalks :=
                  [ {| node_id := 0;
                       resources := [1000; 1048576; 10240; 0; 100; 1000];
                       allocated := [900; 0; 0; 0; 0; 0] |};
                    {| node_id := 1;
                       resources := [1000; 1048576; 10240; 0; 100; 1000];
                       allocated := [0; 0; 0; 0; 0; 0] |} ]
                  ++ replicate 254
                       {| node_id := 0; resources := [0; 0; 0; 0; 0; 0];
                          allocated := [0; 0; 0; 0; 0; 0] |};
                h2_cohomology := {| dimension := 0; computed_at := 0;
                                    valid := false |} |} in
  ~ (published_dimension sys 2 300 = 0
     <-> pair_total allocated (cpu_stalks sys) 2 = 0).
Proof.
  cbv zeta. intros [H _].
  assert (Hd : 900 = 0) by (apply H; vm_compute; reflexivity).
  discriminate Hd.
Qed.

(* ===================================================================== *)
(** * Tensor-folding block allocator *)
(* ===================================================================== *)

Section Allocator.

Lemma cache_level_of_cases size :
  (size <= 64 -> cache_level_of size = 1) /\
  (64 < size <= 262144 -> cache_level_of size = 2) /\
  (262144 < size -> cache_level_of size = 3).
Proof.
  unfold cache_level_of, L1_CACHE_BYTES, L2_CACHE_BYTES.
  change (256 * 1024) with 262144.
  destruct (Z.leb_spec size 64), (Z.leb_spec size 262144);
    repeat split; intros; lia.
Qed.

End Allocator.

(** C9. With the allocator enabled and both underlying allocations
    succeeding, [alloc(size)] prints exactly one triple, whose cache tier
    is 1 when [size <= 64], 2 when [64 < size <= 262144] and 3 when
    [size > 262144], and returns the data pointer; sizes 32, 1000 and
    1000000 get tiers 1, 2 and 3. *)
Theorem tensor_alloc_cache_tier {heap} `{KAlloc heap}
  (cfg : module_params) (size block ptr : Z) (h h1 h2 : heap) :
  enable_tensor_allocator cfg <> 0 ->
  kmalloc SIZEOF_TENSOR_BLOCK h = (Some block, h1) ->
  kmalloc size h1 = (Some ptr, h2) ->
  L1_CACHE_BYTES = 64 /\ L2_CACHE_BYTES = 262144 /\
  (exists morton_index tier,
     symmetrix_tensor_alloc cfg size h
     = ((Some ptr, kfree block h2),
        [TensorAllocDbg size morton_index tier]) /\
     (size <= 64 -> tier = 1) /\
     (64 < size <= 262144 -> tier = 2) /\
     (262144 < size -> tier = 3)) /\
  cache_level_of 32 = 1 /\ cache_level_of 1000 = 2 /\
  cache_level_of 1000000 = 3.
Proof.
  intros Hen Hblock Hptr.
  split; [reflexivity|]. split; [reflexivity|]. split.
  - unfold symmetrix_tensor_alloc.
    apply Z.eqb_neq in Hen. rewrite Hen, Hblock, Hptr.
    eexists _, (cache_level_of size). split; [reflexivity|].
    apply cache_level_of_cases.
  - repeat split; reflexivity.
Qed.

Lemma tensor_alloc_cache_tier_witness :
  let h := {| next_ptr := 4096; budget := 10000000 |} in
  let h2 := {| next_ptr := 5120; budget := 9998976 |} in
  L1_CACHE_BYTES = 64 /\ L2_CACHE_BYTES = 262144 /\
  (exists morton_index tier,
     symmetrix_tensor_alloc default_params 1000 h
     = ((Some 4120, kfree 4096 h2),
        [TensorAllocDbg 1000 morton_index tier]) /\
     (1000 <= 64 -> tier = 1) /\
     (64 < 1000 <= 262144 -> tier = 2) /\
     (262144 < 1000 -> tier = 3)) /\
  cache_level_of 32 = 1 /\ cache_level_of 1000 = 2 /\
  cache_level_of 1000000 = 3.
Proof.
  cbv zeta.
  apply (tensor_alloc_cache_tier default_params 1000 4096 4120
           {| next_ptr := 4096; budget := 10000000 |}
           {| next_ptr := 4120; budget := 9999976 |}
           {| next_ptr := 5120; budget := 9998976 |}).
  - simpl. lia.
  - reflexivity.
  - reflexivity.
Defined.

(* ===================================================================== *)
(** * Modular inverse *)
(* ===================================================================== *)

Section GaloisInv.

Variables m v : Z.
Hypothesis Hm : 1 < m < 2 ^ 63.
Hypothesis Hv : 0 < v < m.

Lemma euclid_inv_init :
  euclid_inv m v {| old_r := wrap_s64 m; r := wrap_s64 v;
                    old_s := 0; s := 1; old_t := 1; t := 0 |}.
Proof.
  rewrite !wrap_s64_small by (unfold s64; lia).
  unfold euclid_inv. cbn [old_r r old_s s old_t t].
  repeat split; try lia.
  exists 1. repeat split; lia.
Qed.

(** Quotient and remainder of one iteration. *)
Lemma euclid_quotient st :
  euclid_inv m v st -> 0 < r st ->
  let q := old_r st / r st in
  1 <= q /\ 0 <= old_r st - q * r st < r st /\
  old_r st - q * r st = old_r st mod r st.
Proof.
  intros (Hr & _) Hpos q.
  pose proof (Z.div_mod (old_r st) (r st) ltac:(lia)) as Hdm.
  pose proof (Z.mod_pos_bound (old_r st) (r st) Hpos) as Hb.
  assert (Hq : 1 <= q).
  { subst q. apply Z.div_le_lower_bound; lia. }
  fold q in Hdm. repeat split; lia || nia.
Qed.

(** The invariant is preserved by the exact iteration. *)
Lemma euclid_inv_step st :
  euclid_inv m v st -> 0 < r st -> euclid_inv m v (euclid_step st).
Proof.
  intros Hinv Hpos.
  destruct (euclid_quotient st Hinv Hpos) as (Hq & Hrem & Hmod).
  destruct Hinv as (Hr & Hom & Hg & Hbs & Hbr & sg & Hsg & HA & HB & HAB
                    & HC & HD & HCD).
  unfold euclid_step, euclid_inv. cbn [old_r r old_s s old_t t].
  set (q := old_r st / r st) in *.
  split; [lia|]. split; [lia|]. split.
  { rewrite <- Hg.
    replace (old_r st - q * r st) with (old_r st + (- q) * r st) by ring.
    rewrite Z.gcd_add_mult_diag_r. apply Z.gcd_comm. }
  split; [exact Hbr|]. split.
  { rewrite Hbs at 1. rewrite Hbr at 1. ring. }
  exists (- sg).
  replace (- - sg * s st) with (sg * s st) by ring.
  replace (- sg * (old_s st - q * s st))
    with (- sg * old_s st + q * (sg * s st)) by ring.
  replace (- sg * old_t st) with (- (sg * old_t st)) by ring.
  replace (- - sg * (old_t st - q * t st))
    with (sg * old_t st + q * (- sg * t st)) by ring.
  replace (- (sg * old_t st)) with (- sg * old_t st) by ring.
  replace (- sg * old_t st) with (sg * t st - sg * t st - sg * old_t st)
    by ring.
  set (A := - sg * old_s st) in *. set (B := sg * s st) in *.
  set (C := sg * old_t st) in *. set (D := - sg * t st) in *.
  assert (HAr : 0 <= A * r st) by (apply Z.mul_nonneg_nonneg; lia).
  assert (HBo : 0 <= B * (old_r st - 1))
    by (apply Z.mul_nonneg_nonneg; lia).
  assert (HCr : 0 <= C * r st) by (apply Z.mul_nonneg_nonneg; lia).
  assert (HDo : 0 <= D * (old_r st - 1))
    by (apply Z.mul_nonneg_nonneg; lia).
  assert (HqB : 0 <= q * B) by (apply Z.mul_nonneg_nonneg; lia).
  assert (HqD : 0 <= q * D) by (apply Z.mul_nonneg_nonneg; lia).
  replace (sg * t st - sg * t st - C) with (- C) by ring.
  replace (sg * t st) with (- D) by (subst D; ring).
  repeat split; try lia.
Qed.

(** Magnitudes of the intermediates of one iteration. *)
Lemma euclid_step_bounds st :
  euclid_inv m v st -> 0 < r st ->
  let q := old_r st / r st in
  1 <= q <= m /\ 0 <= q * r st <= m /\
  - m <= old_s st <= m /\ - m <= old_t st <= m /\
  - m <= q * s st <= m /\ - m <= old_s st - q * s st <= m /\
  - m <= q * t st <= m /\ - m <= old_t st - q * t st <= m.
Proof.
  intros Hinv Hpos q.
  destruct (euclid_quotient st Hinv Hpos) as (Hq & Hrem & _).
  destruct Hinv as (Hr & Hom & _ & _ & _ & sg & Hsg & HA & HB & HAB
                    & HC & HD & HCD).
  fold q in Hq, Hrem.
  assert (Hqr : 0 <= (q - 1) * (r st - 1))
    by (apply Z.mul_nonneg_nonneg; lia).
  assert (HBrem : 0 <= (sg * s st) * (old_r st - q * r st))
    by (apply Z.mul_nonneg_nonneg; lia).
  assert (HDrem : 0 <= (- sg * t st) * (old_r st - q * r st))
    by (apply Z.mul_nonneg_nonneg; lia).
  assert (HqB : 0 <= q * (sg * s st))
    by (apply Z.mul_nonneg_nonneg; lia).
  assert (HqD : 0 <= q * (- sg * t st))
    by (apply Z.mul_nonneg_nonneg; lia).
  assert (HB' : 0 <= (- sg * old_s st + q * (sg * s st)) * (r st - 1))
    by (apply Z.mul_nonneg_nonneg; lia).
  assert (HD' : 0 <= (sg * old_t st + q * (- sg * t st)) * (r st - 1))
    by (apply Z.mul_nonneg_nonneg; lia).
  destruct Hsg; subst sg; repeat split; lia.
Qed.

(** Under the invariant no [s64] intermediate of the source wraps. *)
Lemma inv_step_exact st :
  euclid_inv m v st -> 0 < r st -> inv_step st = euclid_step st.
Proof.
  intros Hinv Hpos.
  destruct (euclid_step_bounds st Hinv Hpos)
    as (Hq & Hqr & Hos & Hot & Hqs & Hs' & Hqt & Ht').
  destruct Hinv as (Hr & Hom & _).
  unfold euclid_step, inv_step.
  rewrite Z.quot_div_nonneg by lia.
  set (q := old_r st / r st) in *.
  rewrite (wrap_s64_small q) by (unfold s64; lia).
  rewrite (wrap_s64_small (q * r st)) by (unfold s64; lia).
  rewrite (wrap_s64_small (q * s st)) by (unfold s64; lia).
  rewrite (wrap_s64_small (q * t st)) by (unfold s64; lia).
  rewrite !wrap_s64_small by (unfold s64; lia).
  reflexivity.
Qed.

(** The loop ends within the fuel and the invariant holds at exit. *)
Lemma inv_loop_terminates fuel :
  forall st, euclid_inv m v st ->
    old_r st * r st < 2 ^ Z.of_nat fuel ->
    exists st', inv_loop fuel st = Some st' /\
                euclid_inv m v st' /\ r st' = 0.
Proof.
  induction fuel as [|fuel IH]; intros st Hinv Hfuel.
  - assert (Hz : r st = 0).
    { destruct Hinv as (Hr & _). simpl in Hfuel.
      assert (0 <= (old_r st - 1) * r st)
        by (apply Z.mul_nonneg_nonneg; lia).
      lia. }
    exists st. cbn [inv_loop]. rewrite Hz. auto.
  - cbn [inv_loop]. destruct (Z.eqb_spec (r st) 0) as [Hz|Hnz].
    + exists st. auto.
    + assert (Hpos : 0 < r st) by (destruct Hinv as (Hr & _); lia).
      rewrite inv_step_exact by assumption.
      apply IH; [now apply euclid_inv_step|].
      destruct (euclid_quotient st Hinv Hpos) as (Hq & Hrem & _).
      unfold euclid_step. cbn [old_r r].
      rewrite Nat2Z.inj_succ, Z.pow_succ_r in Hfuel by lia.
      set (q := old_r st / r st) in *.
      set (rem := old_r st - q * r st) in *.
      assert (0 <= (q - 1) * r st) by (apply Z.mul_nonneg_nonneg; lia).
      assert (0 <= r st * (r st - rem))
        by (apply Z.mul_nonneg_nonneg; lia).
      assert (0 <= r st * (old_r st - r st - rem))
        by (apply Z.mul_nonneg_nonneg; subst rem; lia).
      lia.
Qed.

(** For a modulus below [2^63] and a unit [v], the value returned by
    [symmetrix_galois_inv] is the reduced inverse of [v]. *)
Lemma galois_inv_correct_below_int64 :
  Z.gcd v m = 1 ->
  exists x,
    symmetrix_galois_inv {| value := v; modulus := m |}
    = Some ({| value := x; modulus := m |}, []) /\
    0 <= x < m /\ (v * x) mod m = 1.
Proof.
  intros Hgcd. unfold symmetrix_galois_inv. cbn [value modulus].
  replace (v =? 0) with false by (symmetry; apply Z.eqb_neq; lia).
  destruct (inv_loop_terminates INV_FUEL _ euclid_inv_init)
    as (st & Hloop & Hinv & Hr0).
  { rewrite !wrap_s64_small by (unfold s64; lia). cbn [old_r r].
    change (2 ^ Z.of_nat INV_FUEL) with (2 ^ 63 * 2 ^ 63 * 16).
    assert (0 <= m * (m - v)) by (apply Z.mul_nonneg_nonneg; lia).
    assert (0 <= (2 ^ 63 - m) * (2 ^ 63 + m))
      by (apply Z.mul_nonneg_nonneg; lia).
    lia. }
  rewrite Hloop.
  destruct Hinv as (Hr & Hom & Hg & Hbs & _ & sg & Hsg & HA & _).
  rewrite Hr0, Z.gcd_0_r, (Z.gcd_comm m v), Hgcd in Hg.
  assert (Hone : old_r st = 1) by lia.
  rewrite Hone. change (1 >? 1) with false. cbv iota.
  rewrite wrap64_add_l.
  assert (Hmod : forall x, x = old_s st \/ x = old_s st + m ->
                           (v * x) mod m = 1).
  { intros x Hx.
    replace (v * x) with (1 + (if Z.eq_dec x (old_s st)
                               then - old_t st else v - old_t st) * m)
      by (destruct (Z.eq_dec x (old_s st)); destruct Hx; nia).
    rewrite Z.mod_add by lia. apply Z.mod_small. lia. }
  assert (Hne : old_s st <> m).
  { intros Heq. specialize (Hmod (old_s st) (or_introl eq_refl)).
    rewrite Heq, Z.mod_mul in Hmod by lia. discriminate. }
  destruct (Z.ltb_spec (old_s st) 0) as [Hneg|Hnn].
  - exists (old_s st + m).
    assert (0 <= old_s st + m < m) by (destruct Hsg; subst sg; lia).
    rewrite (wrap64_small (old_s st + m)) by (unfold u64, U64_MOD; lia).
    rewrite wrap_s64_small by (unfold s64; lia).
    rewrite wrap64_small by (unfold u64, U64_MOD; lia).
    unfold lret. repeat split; try lia. apply Hmod. now right.
  - exists (old_s st).
    assert (0 <= old_s st < m) by (destruct Hsg; subst sg; lia).
    rewrite wrap64_small by (unfold u64, U64_MOD; lia).
    unfold lret. repeat split; try lia. apply Hmod. now left.
Qed.

End GaloisInv.

(** Below [2^63] the inverse is genuine: for every modulus
    [1 < m < 2^63] and every reduced unit [a], [mul(a, inv(a))] has
    value [1]. *)
Lemma galois_mul_inv_below_int64 (a : galois_element) :
  1 < modulus a < 2 ^ 63 ->
  0 < value a < modulus a ->
  Z.gcd (value a) (modulus a) = 1 ->
  exists ia,
    symmetrix_galois_inv a = Some (ia, []) /\
    symmetrix_galois_mul a ia = ({| value := 1; modulus := modulus a |}, []).
Proof.
  destruct a as [v m]. cbn [value modulus]. intros Hm Hv Hg.
  destruct (galois_inv_correct_below_int64 m v Hm Hv Hg)
    as (x & Hinv & Hx & Hprod).
  exists {| value := x; modulus := m |}. split; [exact Hinv|].
  unfold symmetrix_galois_mul. cbn [value modulus].
  rewrite Z.eqb_refl. cbn [negb]. unfold lret.
  rewrite mulmod128_exact by (unfold u64, U64_MOD; lia).
  now rewrite Hprod.
Qed.

(** C6. The inverse is wrong for a modulus of [2^63] or more: the
    modulus is stored in an [s64] and becomes negative.  With the prime
    [m = 2^64 - 59] and [a.value = 2] (a unit, its inverse is
    [(m + 1) / 2]), [inv] returns value [29] without a warning and
    [mul(a, inv(a))] has value [58]. *)
Theorem galois_inv_wrong_from_int64_up :
  let m := 2 ^ 64 - 59 in
  let a := {| value := 2; modulus := m |} in
  u64_elem a /\ 0 < value a < m /\ Z.gcd (value a) m = 1 /\
  (value a * ((m + 1) / 2)) mod m = 1 /\
  symmetrix_galois_inv a = Some ({| value := 29; modulus := m |}, []) /\
  symmetrix_galois_mul a {| value := 29; modulus := m |}
  = ({| value := 58; modulus := m |}, []).
Proof.
  cbv zeta. unfold u64_elem, u64, U64_MOD. cbn [value modulus].
  repeat split; try lia; vm_compute; reflexivity.
Qed.

(* ===================================================================== *)
(** * Further properties of the finite-field engine *)
(* ===================================================================== *)

Section GaloisPowCorrect.

Variable md : Z.
Hypothesis Hmd : 0 < md < U64_MOD.

Lemma pow_square_step x b e :
  0 <= e ->
  (x * ((b * b) mod md) ^ e) mod md = (x * b ^ (2 * e)) mod md.
Proof.
  intros He.
  rewrite <- Z.mul_mod_idemp_r by lia.
  rewrite Z.mod_pow_l.
  rewrite Z.mul_mod_idemp_r by lia.
  rewrite Z.pow_mul_r by lia. now rewrite Z.pow_2_r.
Qed.

(** The square-and-multiply loop computes [result * b ^ exp] modulo
    [md] and ends within the fuel. *)
Lemma pow_loop_correct fuel :
  forall result b exp,
    0 <= exp < 2 ^ Z.of_nat fuel -> u64 result -> 0 <= b < md ->
    pow_loop fuel result b exp md
    = Some (if exp =? 0 then result else (result * b ^ exp) mod md).
Proof.
  induction fuel as [|fuel IH]; intros result b exp Hexp Hres Hb.
  - simpl in Hexp. assert (exp = 0) by lia. subst exp. reflexivity.
  - destruct (Z.eq_dec exp 0) as [->|Hnz].
    { reflexivity. }
    cbn [pow_loop].
    replace (exp >? 0) with true by (symmetry; apply Z.gtb_lt; lia).
    replace (exp =? 0) with false by (symmetry; apply Z.eqb_neq; lia).
    rewrite Z.shiftr_div_pow2 by lia. change (2 ^ 1) with 2.
    change 1 with (Z.ones 1) at 1. rewrite Z.land_ones by lia.
    change (2 ^ 1) with 2.
    pose proof (Z.div_mod exp 2 ltac:(lia)) as Hdm.
    pose proof (Z.mod_pos_bound exp 2 ltac:(lia)) as Hbit.
    set (e' := exp / 2) in *.
    assert (He' : 0 <= e' < 2 ^ Z.of_nat fuel).
    { rewrite Nat2Z.inj_succ, Z.pow_succ_r in Hexp by lia. lia. }
    assert (Hub : u64 b) by (unfold u64; lia).
    cbv zeta. rewrite (mulmod128_exact b b) by assumption.
    destruct (Z.eqb_spec (exp mod 2) 1) as [Hodd|Heven].
    + rewrite (mulmod128_exact result b) by assumption.
      rewrite IH; try lia.
      * f_equal. destruct (Z.eqb_spec e' 0) as [Hz|Hpos].
        { replace exp with 1 by lia. now rewrite Z.pow_1_r. }
        { rewrite Z.mul_mod_idemp_l by lia.
          rewrite <- Z.mul_assoc, (Z.mul_comm b), Z.mul_assoc.
          rewrite <- (Z.mul_mod_idemp_l (result * _)) by lia.
          rewrite pow_square_step by lia.
          rewrite Z.mul_mod_idemp_l by lia.
          replace exp with (Z.succ (2 * e')) by lia.
          rewrite Z.pow_succ_r by lia. f_equal. ring. }
      * unfold u64. pose proof (Z.mod_pos_bound (result * b) md). lia.
      * apply Z.mod_pos_bound. lia.
    + rewrite IH; try lia; try assumption.
      * f_equal. replace (e' =? 0) with false
          by (symmetry; apply Z.eqb_neq; lia).
        rewrite pow_square_step by lia.
        replace (2 * e') with exp by lia. reflexivity.
      * apply Z.mod_pos_bound. lia.
Qed.

End GaloisPowCorrect.

(** X1. For every 64-bit exponent and every modulus [0 < md < 2^64],
    [symmetrix_galois_pow] ends within its 64 iterations and returns
    [base ^ exp mod md] (and the unreduced [1] for exponent 0). *)
Theorem galois_pow_is_modular_power (base exp md : Z) :
  u64 exp -> 0 < md < U64_MOD ->
  symmetrix_galois_pow base exp md
  = Some (if exp =? 0 then 1 else base ^ exp mod md).
Proof.
  intros Hexp Hmd. unfold symmetrix_galois_pow.
  rewrite (pow_loop_correct md Hmd 64).
  - destruct (exp =? 0); [reflexivity|].
    rewrite Z.mul_1_l. f_equal. apply Z.mod_pow_l.
  - exact Hexp.
  - unfold u64, U64_MOD. lia.
  - apply Z.mod_pos_bound. lia.
Qed.

Lemma galois_pow_is_modular_power_witness :
  symmetrix_galois_pow 3 17 (2 ^ 61 - 1)
  = Some (if 17 =? 0 then 1 else 3 ^ 17 mod (2 ^ 61 - 1)).
Proof.
  apply galois_pow_is_modular_power; unfold u64, U64_MOD; lia.
Defined.

(** X2. For every modulus [1 < m < 2^63] and every reduced value
    coprime to it, [inv] ends, prints nothing and returns a reduced
    element whose product with the argument, as [mul] computes it, is 1. *)
Theorem galois_inv_is_inverse_below_int64 (m v : Z) :
  1 < m < 2 ^ 63 -> 0 < v < m -> Z.gcd v m = 1 ->
  exists x,
    symmetrix_galois_inv {| value := v; modulus := m |}
    = Some ({| value := x; modulus := m |}, []) /\
    0 <= x < m /\
    symmetrix_galois_mul {| value := v; modulus := m |}
                         {| value := x; modulus := m |}
    = ({| value := 1; modulus := m |}, []).
Proof.
  intros Hm Hv Hg.
  destruct (galois_inv_correct_below_int64 m v Hm Hv Hg)
    as (x & Hinv & Hx & Hprod).
  exists x. split; [exact Hinv|]. split; [exact Hx|].
  unfold symmetrix_galois_mul. cbn [value modulus].
  rewrite Z.eqb_refl. cbn [negb]. unfold lret.
  rewrite mulmod128_exact by (unfold u64, U64_MOD; lia).
  now rewrite Hprod.
Qed.

Lemma galois_inv_is_inverse_below_int64_witness :
  exists x,
    symmetrix_galois_inv {| value := 3; modulus := 2 ^ 61 - 1 |}
    = Some ({| value := x; modulus := 2 ^ 61 - 1 |}, []) /\
    0 <= x < 2 ^ 61 - 1 /\
    symmetrix_galois_mul {| value := 3; modulus := 2 ^ 61 - 1 |}
                         {| value := x; modulus := 2 ^ 61 - 1 |}
    = ({| value := 1; modulus := 2 ^ 61 - 1 |}, []).
Proof.
  apply (galois_inv_is_inverse_below_int64 (2 ^ 61 - 1) 3);
    [lia | lia | reflexivity].
Defined.

(** X3. Below [2^63], [inv] reports what it cannot invert: for a zero
    value, and for a reduced non-zero value that shares a factor with the
    modulus, it prints a warning and returns the zero element tagged with
    the modulus. *)
Theorem galois_inv_rejects_non_units (a : galois_element) :
  1 < modulus a < 2 ^ 63 ->
  0 <= value a < modulus a ->
  Z.gcd (value a) (modulus a) <> 1 ->
  exists text,
    symmetrix_galois_inv a
    = Some ({| value := 0; modulus := modulus a |}, [Warn text]).
Proof.
  destruct a as [v m]. cbn [value modulus]. intros Hm Hv Hg.
  unfold symmetrix_galois_inv. cbn [value modulus].
  destruct (Z.eqb_spec v 0) as [Hz|Hnz].
  { eexists. reflexivity. }
  assert (Hv' : 0 < v < m) by lia.
  destruct (inv_loop_terminates m v Hm Hv' INV_FUEL _
              (euclid_inv_init m v Hm Hv'))
    as (st & Hloop & Hinv & Hr0).
  { rewrite !wrap_s64_small by (unfold s64; lia). cbn [old_r r].
    change (2 ^ Z.of_nat INV_FUEL) with (2 ^ 63 * 2 ^ 63 * 16).
    assert (0 <= m * (m - v)) by (apply Z.mul_nonneg_nonneg; lia).
    assert (0 <= (2 ^ 63 - m) * (2 ^ 63 + m))
      by (apply Z.mul_nonneg_nonneg; lia).
    lia. }
  rewrite Hloop.
  destruct Hinv as (Hr & Hom & Hgcd & _).
  rewrite Hr0, Z.gcd_0_r, (Z.gcd_comm m v) in Hgcd.
  assert (Hbig : 1 < old_r st) by lia.
  replace (old_r st >? 1) with true by (symmetry; apply Z.gtb_lt; lia).
  eexists. reflexivity.
Qed.

Lemma galois_inv_rejects_non_units_witness :
  exists text,
    symmetrix_galois_inv {| value := 6; modulus := 15 |}
    = Some ({| value := 0; modulus := 15 |}, [Warn text]).
Proof.
  apply (galois_inv_rejects_non_units {| value := 6; modulus := 15 |});
    cbn [value modulus]; [lia | lia | vm_compute; discriminate].
Defined.

(** X4. On reduced elements of one modulus [0 < m <= 2^63] the 64-bit
    sum cannot overflow: [add] returns exactly [(a.value + b.value) mod m],
    again reduced, without a warning. *)
Theorem galois_add_exact_on_reduced (a b : galois_element) (m : Z) :
  0 < m <= 2 ^ 63 ->
  modulus a = m -> modulus b = m ->
  0 <= value a < m -> 0 <= value b < m ->
  symmetrix_galois_add a b
  = ({| value := (value a + value b) mod m; modulus := m |}, []) /\
  0 <= (value a + value b) mod m < m.
Proof.
  intros Hm Hma Hmb Ha Hb. split.
  - apply galois_add_no_overflow; try assumption; try lia;
      unfold u64_elem, u64, U64_MOD; rewrite ?Hma, ?Hmb; lia.
  - apply Z.mod_pos_bound. lia.
Qed.

Lemma galois_add_exact_on_reduced_witness :
  let m := 2 ^ 61 - 1 in
  symmetrix_galois_add {| value := m - 1; modulus := m |}
                       {| value := m - 2; modulus := m |}
  = ({| value := (m - 1 + (m - 2)) mod m; modulus := m |}, []) /\
  0 <= (m - 1 + (m - 2)) mod m < m.
Proof.
  cbv zeta.
  apply (galois_add_exact_on_reduced
           {| value := 2 ^ 61 - 1 - 1; modulus := 2 ^ 61 - 1 |}
           {| value := 2 ^ 61 - 1 - 2; modulus := 2 ^ 61 - 1 |});
    cbn [value modulus]; lia.
Defined.

(** X5. On reduced elements of one modulus [0 < m <= 2^63], [add] and
    [mul] obey the commutative-ring laws: both are commutative and
    associative, and [mul] distributes over [add]. *)
Theorem galois_ring_laws (m x y z : Z) :
  0 < m <= 2 ^ 63 ->
  0 <= x < m -> 0 <= y < m -> 0 <= z < m ->
  let e := fun v => {| value := v; modulus := m |} in
  let add := fun a b => fst (symmetrix_galois_add a b) in
  let mul := fun a b => fst (symmetrix_galois_mul a b) in
  add (e x) (e y) = add (e y) (e x) /\
  add (add (e x) (e y)) (e z) = add (e x) (add (e y) (e z)) /\
  mul (e x) (e y) = mul (e y) (e x) /\
  mul (mul (e x) (e y)) (e z) = mul (e x) (mul (e y) (e z)) /\
  mul (e x) (add (e y) (e z)) = add (mul (e x) (e y)) (mul (e x) (e z)).
Proof.
  intros Hm Hx Hy Hz e add mul.
  assert (Hadd : forall u v, 0 <= u < m -> 0 <= v < m ->
            add (e u) (e v) = e ((u + v) mod m)).
  { intros u v Hu Hv. subst add e. cbv beta.
    unfold symmetrix_galois_add. cbn [value modulus].
    rewrite Z.eqb_refl. cbn [negb fst lret].
    rewrite wrap64_small by (unfold u64, U64_MOD; lia). reflexivity. }
  assert (Hmul : forall u v, 0 <= u < m -> 0 <= v < m ->
            mul (e u) (e v) = e ((u * v) mod m)).
  { intros u v Hu Hv. subst mul e. cbv beta.
    unfold symmetrix_galois_mul. cbn [value modulus].
    rewrite Z.eqb_refl. cbn [negb fst lret].
    rewrite mulmod128_exact by (unfold u64, U64_MOD; lia). reflexivity. }
  assert (Hred : forall u, 0 <= u mod m < m)
    by (intros; apply Z.mod_pos_bound; lia).
  repeat first [rewrite Hadd by auto | rewrite Hmul by auto].
  subst e. cbv beta. repeat split; f_equal.
  - f_equal. lia.
  - rewrite Z.add_mod_idemp_l, Z.add_mod_idemp_r by lia. f_equal. lia.
  - f_equal. lia.
  - rewrite Z.mul_mod_idemp_l, Z.mul_mod_idemp_r by lia. f_equal. lia.
  - rewrite Z.mul_mod_idemp_r by lia. rewrite <- Zplus_mod. f_equal. lia.
Qed.

Lemma galois_ring_laws_witness :
  let m := 2 ^ 61 - 1 in
  let e := fun v => {| value := v; modulus := m |} in
  let add := fun a b => fst (symmetrix_galois_add a b) in
  let mul := fun a b => fst (symmetrix_galois_mul a b) in
  add (e 5) (e 7) = add (e 7) (e 5) /\
  add (add (e 5) (e 7)) (e 11) = add (e 5) (add (e 7) (e 11)) /\
  mul (e 5) (e 7) = mul (e 7) (e 5) /\
  mul (mul (e 5) (e 7)) (e 11) = mul (e 5) (mul (e 7) (e 11)) /\
  mul (e 5) (add (e 7) (e 11)) = add (mul (e 5) (e 7)) (mul (e 5) (e 11)).
Proof.
  apply (galois_ring_laws (2 ^ 61 - 1) 5 7 11); lia.
Defined.

(* ===================================================================== *)
(** * Further properties of the CRT functions *)
(* ===================================================================== *)

(** X6. With one or two primes the round trip holds: every value below
    the product of the first [k] table primes ([k = 1] or [k = 2]) is
    returned by [crt_reconstruct] from the residues [crt_decompose]
    wrote. *)
Theorem crt_round_trip_up_to_two_primes (p v k : Z) (buf : list Z) :
  k = 1 \/ k = 2 ->
  0 <= v < prime_product (Z.to_nat k) ->
  (Z.to_nat k <= length buf)%nat ->
  crt_round_trip (engine_of p) v k buf = Some (0, v).
Proof.
  intros [->| ->] Hv Hlen.
  - now apply crt_round_trip_one_prime.
  - now apply crt_round_trip_two_primes.
Qed.

Lemma crt_round_trip_up_to_two_primes_witness :
  crt_round_trip (engine_of (2 ^ 61 - 1)) 4000000000000000000 2
    [0; 0; 0; 0; 0; 0; 0; 0]
  = Some (0, 4000000000000000000).
Proof.
  apply crt_round_trip_up_to_two_primes.
  - now right.
  - vm_compute. split; [discriminate | reflexivity].
  - simpl. lia.
Defined.

Section CrtReconstructTotal.

Lemma crt_table_prime_range i :
  (i < 8)%nat -> 2 < rd symmetrix_crt_primes i < 2 ^ 32.
Proof.
  intros Hi.
  do 8 (destruct i as [|i]; [vm_compute; split; reflexivity|]). lia.
Qed.

Lemma crt_product_positive n :
  (n <= 8)%nat -> 0 < crt_product symmetrix_crt_primes n < U64_MOD.
Proof.
  intros Hn.
  do 9 (destruct n as [|n]; [vm_compute; split; reflexivity|]). lia.
Qed.

Lemma reconstruct_loop_total residues product n :
  (n <= 8)%nat -> 0 < product ->
  exists sum,
    reconstruct_loop symmetrix_crt_primes residues product n = Some sum /\
    0 <= sum < product.
Proof.
  intros Hn Hp. unfold reconstruct_loop. induction n as [|n IH].
  - exists 0. rewrite for_range_0. split; [reflexivity | lia].
  - destruct IH as (sum & Hsum & _); [lia|].
    rewrite for_range_S, Hsum. cbn [Nat.add]. unfold reconstruct_step.
    pose proof (crt_table_prime_range n ltac:(lia)) as Hprime.
    set (q := rd symmetrix_crt_primes n) in *.
    unfold symmetrix_galois_pow.
    rewrite (pow_loop_correct q ltac:(unfold U64_MOD; lia) 64).
    + eexists. split; [reflexivity|]. apply Z.mod_pos_bound. lia.
    + change (2 ^ Z.of_nat 64) with U64_MOD.
      apply Z.mod_pos_bound. unfold U64_MOD. lia.
    + unfold u64, U64_MOD. lia.
    + apply Z.mod_pos_bound. lia.
Qed.

End CrtReconstructTotal.

(** X7. [crt_reconstruct] always returns: for a count that is negative
    or above 8 it fails with [-EINVAL] and leaves [*result] as it was;
    for [0 <= k <= 8] it succeeds, whatever the residues, with a value
    below the 64-bit product of the first [k] primes (so [0] for
    [k = 0]). *)
Theorem crt_reconstruct_guard_and_range
  (p k result : Z) (residues : list Z) :
  c_int k ->
  let out := symmetrix_crt_reconstruct (engine_of p) residues k result in
  (k < 0 \/ 8 < k -> out = Some (- EINVAL, result)) /\
  (0 <= k <= 8 ->
     exists sum, out = Some (0, sum) /\
       0 <= sum < crt_product symmetrix_crt_primes (Z.to_nat k)) /\
  (k = 0 -> out = Some (0, 0)).
Proof.
  intros Hk out. subst out. unfold symmetrix_crt_reconstruct, c_int in *.
  change SYMMETRIX_NUM_CRT_PRIMES with 8. cbn [crt_primes engine_of].
  split; [|split].
  - intros Hbad.
    replace (wrap64 k >? 8) with true; [reflexivity|].
    symmetry. apply Z.gtb_lt. destruct Hbad as [Hneg|Hbig].
    + unfold wrap64, U64_MOD.
      rewrite <- (Z.mod_add k 1 (2 ^ 64)) by lia.
      rewrite Z.mod_small; lia.
    + rewrite wrap64_small by (unfold u64, U64_MOD; lia). lia.
  - intros Hok.
    rewrite wrap64_small by (unfold u64, U64_MOD; lia).
    replace (k >? 8) with false
      by (symmetry; rewrite Z.gtb_ltb; apply Z.ltb_ge; lia).
    pose proof (crt_product_positive (Z.to_nat k) ltac:(lia)) as Hprod.
    destruct (reconstruct_loop_total residues
                (crt_product symmetrix_crt_primes (Z.to_nat k))
                (Z.to_nat k) ltac:(lia) ltac:(lia))
      as (sum & Hsum & Hrange).
    rewrite Hsum. exists sum. split; [reflexivity | exact Hrange].
  - intros ->. reflexivity.
Qed.

Lemma crt_reconstruct_guard_and_range_witness :
  let out :=
    symmetrix_crt_reconstruct (engine_of (2 ^ 61 - 1)) [5; 6; 7] 3 99 in
  (3 < 0 \/ 8 < 3 -> out = Some (- EINVAL, 99)) /\
  (0 <= 3 <= 8 ->
     exists sum, out = Some (0, sum) /\
       0 <= sum < crt_product symmetrix_crt_primes (Z.to_nat 3)) /\
  (3 = 0 -> out = Some (0, 0)).
Proof.
  apply (crt_reconstruct_guard_and_range (2 ^ 61 - 1) 3 99 [5; 6; 7]).
  unfold c_int. lia.
Defined.

(* ===================================================================== *)
(** * Modular matrix product *)
(* ===================================================================== *)

Section MatrixMul.

Lemma wrap_int_small z : - 2 ^ 31 <= z < 2 ^ 31 -> wrap_int z = z.
Proof. intros H. unfold wrap_int. rewrite Z.mod_small; lia. Qed.

Lemma for_range_ext {St} lo n (f g : nat -> St -> St) init :
  (forall i st, (lo <= i < lo + n)%nat -> f i st = g i st) ->
  for_range lo n f init = for_range lo n g init.
Proof.
  intros H. induction n as [|n IH].
  - reflexivity.
  - rewrite !for_range_S, IH; [apply H; lia|].
    intros i st Hi. apply H. lia.
Qed.

Lemma rd_u64 arr i : Forall u64 arr -> u64 (rd arr i).
Proof.
  intros Hall. unfold rd. destruct (arr !! i) as [x|] eqn:Hx.
  - cbn. eapply Forall_lookup_1; eauto.
  - cbn. unfold u64, U64_MOD. lia.
Qed.

Lemma rd_insert_eq arr i x : (i < length arr)%nat -> rd (<[ i := x ]> arr) i = x.
Proof. intros H. apply rd_lookup. now apply list_lookup_insert_eq. Qed.

Lemma rd_eq_of_lookup arr arr' i : arr !! i = arr' !! i -> rd arr i = rd arr' i.
Proof. unfold rd. now intros ->. Qed.

Lemma insert_rd_id arr i : <[ i := rd arr i ]> arr = arr.
Proof.
  destruct (arr !! i) as [x|] eqn:Hx.
  - apply list_insert_id. unfold rd. now rewrite Hx.
  - apply list_insert_ge. now apply lookup_ge_None.
Qed.

Variable N : nat.
Hypothesis HN : Z.of_nat (N * N) < 2 ^ 31.

Lemma cell_index_bound i j : (i < N)%nat -> (j < N)%nat -> (i * N + j < N * N)%nat.
Proof.
  intros Hi Hj.
  assert (S i * N <= N * N)%nat by (apply Nat.mul_le_mono_r; lia). lia.
Qed.

Lemma cell_index_inj i j i' j' :
  (j < N)%nat -> (j' < N)%nat ->
  (i * N + j = i' * N + j')%nat -> i = i' /\ j = j'.
Proof.
  intros Hj Hj' Heq.
  assert (HN0 : N <> 0%nat) by lia.
  assert (Hi : i = i').
  { pose proof (Nat.div_add_l i N j HN0) as H1.
    pose proof (Nat.div_add_l i' N j' HN0) as H2.
    rewrite (Nat.div_small j N Hj) in H1.
    rewrite (Nat.div_small j' N Hj') in H2.
    rewrite Heq in H1. lia. }
  subst i'. split; [reflexivity | lia].
Qed.

Lemma idx_exact i k :
  (i < N)%nat -> (k < N)%nat -> idx i (Z.of_nat N) k = (i * N + k)%nat.
Proof.
  intros Hi Hk. unfold idx.
  pose proof (cell_index_bound i k Hi Hk) as Hb.
  assert (Hin : (i * N <= i * N + k)%nat) by lia.
  rewrite <- Nat2Z.inj_mul.
  rewrite (wrap_int_small (Z.of_nat (i * N))) by lia.
  rewrite <- Nat2Z.inj_add.
  rewrite wrap_int_small by lia.
  apply Nat2Z.id.
Qed.

Lemma for_range_stable {St} lo n (body : nat -> St -> St) x :
  (forall i, (lo <= i < lo + n)%nat -> body i x = x) ->
  for_range lo n body x = x.
Proof.
  intros H. induction n as [|n IH].
  - reflexivity.
  - rewrite for_range_S, IH; [apply H; lia|].
    intros i Hi. apply H. lia.
Qed.

Variables (pr : nat) (mem0 : memory).
Hypothesis Hlen0 : (pr + N * N <= length mem0)%nat.

(** [m] has the size of the initial memory and differs from it at most
    inside the result buffer. *)
Let agree (m : memory) : Prop :=
  length m = length mem0 /\
  forall c, (c < pr \/ pr + N * N <= c)%nat -> m !! c = mem0 !! c.

Lemma agree_insert m c v :
  agree m -> (pr <= c < pr + N * N)%nat -> agree (<[ c := v ]> m).
Proof.
  intros [Hl Ho] Hc. split.
  - rewrite length_insert. exact Hl.
  - intros c' Hc'. rewrite list_lookup_insert_ne by lia. apply Ho, Hc'.
Qed.

(** A buffer that does not overlap the result buffer still holds its
    initial content. *)
Lemma operand_read m p x :
  agree m -> (p + N * N <= pr \/ pr + N * N <= p)%nat -> (x < N * N)%nat ->
  rd m (p + x) = rd mem0 (p + x).
Proof. intros [_ Ho] Hd Hx. apply rd_eq_of_lookup, Ho. lia. Qed.

Lemma matrix_zero_spec :
  agree (matrix_zero pr (Z.of_nat N) mem0) /\
  (forall c, (pr <= c < pr + N * N)%nat ->
     matrix_zero pr (Z.of_nat N) mem0 !! c = Some 0).
Proof.
  unfold matrix_zero.
  rewrite <- Nat2Z.inj_mul, wrap_int_small, Nat2Z.id by lia.
  assert (Hgen : forall n, (n <= N * N)%nat ->
            let m := for_range 0 n (fun i m => <[ (pr + i)%nat := 0 ]> m) mem0 in
            agree m /\
            (forall c, (pr <= c < pr + n)%nat -> m !! c = Some 0)).
  { induction n as [|n IH]; intros Hn.
    - cbv zeta. rewrite for_range_0. split.
      + split; [reflexivity | intros; reflexivity].
      + intros c Hc. lia.
    - cbv zeta. rewrite for_range_S. cbn [Nat.add].
      destruct (IH ltac:(lia)) as [Hag Hz]. cbv zeta in Hag, Hz.
      split.
      + apply agree_insert; [exact Hag | lia].
      + intros c Hc. destruct (decide (c = (pr + n)%nat)) as [->|Hne].
        * apply list_lookup_insert_eq. destruct Hag as [Hl _]. lia.
        * rewrite list_lookup_insert_ne by congruence. apply Hz. lia. }
  destruct (Hgen (N * N)%nat ltac:(lia)) as [Hag Hz].
  split; [exact Hag | exact Hz].
Qed.

Variables (md : Z) (pa pb : nat).

(** A call whose result buffer is also one of its operands: the operand
    is cleared with the result, every product is 0, and no cell of the
    cleared result ever changes. *)
Lemma matrix_cell_in_place i j m :
  (pa = pr \/ pb = pr) -> (i < N)%nat -> (j < N)%nat ->
  (forall c, (pr <= c < pr + N * N)%nat -> m !! c = Some 0) ->
  matrix_cell md pa pb pr (Z.of_nat N) i j m = m.
Proof.
  intros Hal Hi Hj Hz. unfold matrix_cell. rewrite Nat2Z.id.
  apply for_range_stable. intros k Hk. cbv zeta.
  rewrite (idx_exact i j), (idx_exact i k), (idx_exact k j) by lia.
  pose proof (cell_index_bound i j Hi Hj) as Hij.
  pose proof (cell_index_bound i k Hi ltac:(lia)) as Hik.
  pose proof (cell_index_bound k j ltac:(lia) Hj) as Hkj.
  assert (Hprod : mulmod128 (rd m (pa + (i * N + k))) (rd m (pb + (k * N + j))) md
                  = 0).
  { unfold mulmod128, wrap128, wrap64.
    destruct Hal as [-> | ->].
    - rewrite (rd_lookup m (pr + (i * N + k)) 0) by (apply Hz; lia).
      rewrite Z.mul_0_l. reflexivity.
    - rewrite (rd_lookup m (pr + (k * N + j)) 0) by (apply Hz; lia).
      rewrite Z.mul_0_r. reflexivity. }
  rewrite Hprod.
  rewrite (rd_lookup m (pr + (i * N + j)) 0) by (apply Hz; lia).
  apply list_insert_id. rewrite Hz by lia. reflexivity.
Qed.

Lemma matrix_mul_in_place eng :
  prime eng = md -> (pa = pr \/ pb = pr) ->
  let out := symmetrix_galois_matrix_mul eng pa pb pr (Z.of_nat N) mem0 in
  fst out = 0 /\
  length (snd out) = length mem0 /\
  (forall c, (pr <= c < pr + N * N)%nat -> snd out !! c = Some 0) /\
  (forall c, (c < pr \/ pr + N * N <= c)%nat -> snd out !! c = mem0 !! c).
Proof.
  intros Hp Hal out. subst out. unfold symmetrix_galois_matrix_mul.
  rewrite Hp, Nat2Z.id. cbn [fst snd].
  destruct matrix_zero_spec as [[Hl Ho] Hz].
  rewrite for_range_stable.
  - repeat split; assumption.
  - intros i Hi. apply for_range_stable. intros j Hj.
    apply matrix_cell_in_place; [exact Hal | lia | lia | exact Hz].
Qed.

Hypothesis Hda : (pa + N * N <= pr \/ pr + N * N <= pa)%nat.
Hypothesis Hdb : (pb + N * N <= pr \/ pr + N * N <= pb)%nat.

(** With the operands apart from the result, the [k] loop reads the
    initial operands and writes only its own cell. *)
Lemma matrix_cell_insert i j m :
  agree m -> (i < N)%nat -> (j < N)%nat ->
  matrix_cell md pa pb pr (Z.of_nat N) i j m
  = <[ (pr + (i * N + j))%nat :=
         cell_acc md mem0 pa pb N i j N (rd m (pr + (i * N + j))) ]> m.
Proof.
  intros Hag Hi Hj. unfold matrix_cell. rewrite Nat2Z.id.
  rewrite (idx_exact i j Hi Hj).
  pose proof (cell_index_bound i j Hi Hj) as Hij.
  set (c := (pr + (i * N + j))%nat).
  assert (Hc : (pr <= c < pr + N * N)%nat) by (subst c; lia).
  assert (Hgen : forall K, (K <= N)%nat ->
            for_range 0 K
              (fun k m' =>
                 let product :=
                   mulmod128 (rd m' (pa + idx i (Z.of_nat N) k))
                             (rd m' (pb + idx k (Z.of_nat N) j)) md in
                 <[ c := wrap64 (rd m' c + product) mod md ]> m') m
            = <[ c := cell_acc md mem0 pa pb N i j K (rd m c) ]> m).
  { unfold cell_acc. induction K as [|K IH]; intros HK.
    - rewrite !for_range_0. symmetry. apply insert_rd_id.
    - rewrite !for_range_S, IH by lia. cbn [Nat.add]. cbv zeta.
      rewrite (idx_exact i K), (idx_exact K j) by lia.
      pose proof (cell_index_bound i K Hi ltac:(lia)) as HiK.
      pose proof (cell_index_bound K j ltac:(lia) Hj) as HKj.
      match goal with
      | |- context [ <[ c := ?v ]> m ] =>
          assert (Hag' : agree (<[ c := v ]> m))
            by (apply agree_insert; assumption);
          rewrite (operand_read _ pa _ Hag' Hda HiK),
                  (operand_read _ pb _ Hag' Hdb HKj);
          rewrite (rd_insert_eq m c v) by (destruct Hag; lia)
      end.
      apply list_insert_insert_eq. }
  apply Hgen. lia.
Qed.

Hypothesis Hmd : 0 < md <= 2 ^ 63.
Hypothesis Hmem : Forall u64 mem0.

(** The reduced accumulation is the exact partial sum modulo [md]. *)
Lemma cell_acc_exact i j K init :
  0 <= init < md ->
  cell_acc md mem0 pa pb N i j K init
  = (init + for_range 0 K
              (fun k acc =>
                 acc + rd mem0 (pa + (i * N + k)) * rd mem0 (pb + (k * N + j))) 0)
    mod md.
Proof.
  intros Hinit. unfold cell_acc. induction K as [|K IH].
  - rewrite !for_range_0, Z.add_0_r. symmetry. apply Z.mod_small. lia.
  - rewrite !for_range_S, IH. cbn [Nat.add].
    set (s := for_range 0 K
                (fun k acc =>
                   acc + rd mem0 (pa + (i * N + k)) * rd mem0 (pb + (k * N + j))) 0).
    rewrite mulmod128_exact
      by (try apply rd_u64; try assumption; unfold U64_MOD; lia).
    pose proof (Z.mod_pos_bound (init + s) md ltac:(lia)).
    pose proof (Z.mod_pos_bound
                  (rd mem0 (pa + (i * N + K)) * rd mem0 (pb + (K * N + j))) md
                  ltac:(lia)).
    rewrite wrap64_small by (unfold u64, U64_MOD; lia).
    rewrite <- Zplus_mod. f_equal. lia.
Qed.

Let row (i J : nat) (m : memory) : memory :=
  for_range 0 J
    (fun j m' => matrix_cell md pa pb pr (Z.of_nat N) i j m') m.

Let outer (I : nat) (m : memory) : memory :=
  for_range 0 I (fun i m' => row i N m') m.

Lemma row_S i J m :
  row i (S J) m = matrix_cell md pa pb pr (Z.of_nat N) i J (row i J m).
Proof. unfold row. rewrite for_range_S. reflexivity. Qed.

Lemma outer_S I m : outer (S I) m = row I N (outer I m).
Proof. unfold outer. rewrite for_range_S. reflexivity. Qed.

Lemma row_agree i J m :
  agree m -> (i < N)%nat -> (J <= N)%nat -> agree (row i J m).
Proof.
  intros Hag Hi. induction J as [|J IH]; intros HJ.
  - exact Hag.
  - rewrite row_S, matrix_cell_insert; [|apply IH; lia|lia|lia].
    apply agree_insert; [apply IH; lia|].
    pose proof (cell_index_bound i J Hi ltac:(lia)). lia.
Qed.

Lemma row_other i J m c :
  agree m -> (i < N)%nat -> (J <= N)%nat ->
  (forall j, (j < J)%nat -> c <> (pr + (i * N + j))%nat) ->
  row i J m !! c = m !! c.
Proof.
  intros Hag Hi. induction J as [|J IH]; intros HJ Hc.
  - reflexivity.
  - rewrite row_S, matrix_cell_insert; [|apply row_agree; (assumption || lia)|lia|lia].
    rewrite list_lookup_insert_ne by (intros Heq; apply (Hc J); lia).
    apply IH; [lia|]. intros j Hj. apply Hc. lia.
Qed.

Lemma row_hit i J m j :
  agree m -> (i < N)%nat -> (J <= N)%nat -> (j < J)%nat ->
  row i J m !! (pr + (i * N + j))%nat
  = Some (cell_acc md mem0 pa pb N i j N (rd m (pr + (i * N + j)))).
Proof.
  intros Hag Hi. induction J as [|J IH]; intros HJ Hj.
  - lia.
  - pose proof (row_agree i J m Hag Hi ltac:(lia)) as HagJ.
    rewrite row_S, matrix_cell_insert; [|exact HagJ|lia|lia].
    destruct (decide (j = J)) as [->|Hne].
    + pose proof (cell_index_bound i J Hi ltac:(lia)) as Hb.
      rewrite list_lookup_insert_eq by (destruct HagJ as [Hl _]; lia).
      f_equal. f_equal. apply rd_eq_of_lookup.
      apply row_other; [exact Hag | lia | lia |]. intros j' Hj'. lia.
    + rewrite list_lookup_insert_ne by lia.
      apply IH; lia.
Qed.

Lemma outer_agree I m : agree m -> (I <= N)%nat -> agree (outer I m).
Proof.
  intros Hag. induction I as [|I IH]; intros HI.
  - exact Hag.
  - rewrite outer_S. apply row_agree; [apply IH; lia | lia | lia].
Qed.

Lemma outer_other I m c :
  agree m -> (I <= N)%nat ->
  (forall i j, (i < I)%nat -> (j < N)%nat -> c <> (pr + (i * N + j))%nat) ->
  outer I m !! c = m !! c.
Proof.
  intros Hag. induction I as [|I IH]; intros HI Hc.
  - reflexivity.
  - rewrite outer_S.
    rewrite row_other;
      [|apply outer_agree; (assumption || lia)|lia|lia|intros j Hj; apply Hc; lia].
    apply IH; [lia|]. intros i j Hi Hj. apply Hc; lia.
Qed.

Lemma outer_hit I m i j :
  agree m -> (I <= N)%nat -> (i < I)%nat -> (j < N)%nat ->
  outer I m !! (pr + (i * N + j))%nat
  = Some (cell_acc md mem0 pa pb N i j N (rd m (pr + (i * N + j)))).
Proof.
  intros Hag HI Hi Hj. induction I as [|I IH].
  - lia.
  - pose proof (outer_agree I m Hag ltac:(lia)) as HagI.
    rewrite outer_S.
    destruct (decide (i = I)) as [->|Hne].
    + rewrite row_hit; [|exact HagI|lia|lia|lia].
      f_equal. f_equal. apply rd_eq_of_lookup.
      apply outer_other; [exact Hag | lia |].
      intros i' j' Hi' Hj' Heq.
      assert (Heq' : (I * N + j = i' * N + j')%nat) by lia.
      apply cell_index_inj in Heq'; lia.
    + rewrite row_other; [apply IH; lia | exact HagI | lia | lia |].
      intros j' Hj' Heq.
      assert (Heq' : (i * N + j = I * N + j')%nat) by lia.
      apply cell_index_inj in Heq'; lia.
Qed.

(** Every cell of the result holds the reduced dot product of the
    operands as they were before the call; the rest of the memory, the
    operands included, is untouched. *)
Lemma matrix_mul_lookup eng :
  prime eng = md ->
  let out := symmetrix_galois_matrix_mul eng pa pb pr (Z.of_nat N) mem0 in
  fst out = 0 /\
  length (snd out) = length mem0 /\
  (forall i j, (i < N)%nat -> (j < N)%nat ->
     snd out !! (pr + (i * N + j))%nat = Some (dot mem0 pa pb N i j mod md)) /\
  (forall c, (c < pr \/ pr + N * N <= c)%nat -> snd out !! c = mem0 !! c).
Proof.
  intros Hp out. subst out. unfold symmetrix_galois_matrix_mul.
  rewrite Hp, Nat2Z.id. cbn [fst snd].
  destruct matrix_zero_spec as [Hagz Hz].
  set (z := matrix_zero pr (Z.of_nat N) mem0) in *.
  pose proof (outer_agree N z Hagz ltac:(lia)) as HA.
  pose proof (outer_hit N z) as HH.
  cbv delta [outer row] beta in HA, HH.
  destruct HA as [HL HO].
  split; [reflexivity|]. split; [|split].
  - exact HL.
  - intros i j Hi Hj.
    pose proof (cell_index_bound i j Hi Hj) as Hcb.
    rewrite HH by (assumption || lia).
    f_equal. rewrite (rd_lookup z _ 0) by (apply Hz; lia).
    rewrite cell_acc_exact by lia. reflexivity.
  - intros c Hc. apply HO, Hc.
Qed.

End MatrixMul.

(** X8. Memory is an array of 64-bit cells and [a], [b], [result] point
    into it.  For a working prime [0 < p <= 2^63] and a dimension [n]
    with [n * n] within [int], when the three [n * n]-cell buffers lie
    inside the memory and the result buffer overlaps neither operand,
    [matrix_multiply] returns 0, writes into cell [(i, j)] of the result
    the dot product of row [i] of [a] and column [j] of [b] reduced
    modulo [p], and leaves every cell outside the result buffer, the
    operands included, as it was. *)
Theorem galois_matrix_mul_entries
  (eng : galois_engine) (a b result n : nat) (mem : memory) :
  0 < prime eng <= 2 ^ 63 ->
  Forall u64 mem ->
  Z.of_nat (n * n) < 2 ^ 31 ->
  (a + n * n <= length mem)%nat -> (b + n * n <= length mem)%nat ->
  (result + n * n <= length mem)%nat ->
  (a + n * n <= result \/ result + n * n <= a)%nat ->
  (b + n * n <= result \/ result + n * n <= b)%nat ->
  let out := symmetrix_galois_matrix_mul eng a b result (Z.of_nat n) mem in
  fst out = 0 /\
  length (snd out) = length mem /\
  (forall i j, (i < n)%nat -> (j < n)%nat ->
     snd out !! (result + (i * n + j))%nat
     = Some (dot mem a b n i j mod prime eng)) /\
  (forall c, (c < result \/ result + n * n <= c)%nat ->
     snd out !! c = mem !! c).
Proof.
  intros Hp Hmem Hn _ _ Hres Hda Hdb.
  exact (matrix_mul_lookup n Hn result mem Hres (prime eng) a b Hda Hdb Hp Hmem
           eng eq_refl).
Qed.

Lemma galois_matrix_mul_entries_witness :
  let mem := [1; 2; 3; 4; 5; 6; 7; 8; 9; 9; 9; 9; 9] in
  let out :=
    symmetrix_galois_matrix_mul (engine_of 7) 0 4 8 (Z.of_nat 2) mem in
  fst out = 0 /\
  length (snd out) = length mem /\
  (forall i j, (i < 2)%nat -> (j < 2)%nat ->
     snd out !! (8 + (i * 2 + j))%nat = Some (dot mem 0 4 2 i j mod 7)) /\
  (forall c, (c < 8 \/ 8 + 2 * 2 <= c)%nat -> snd out !! c = mem !! c).
Proof.
  apply (galois_matrix_mul_entries (engine_of 7) 0 4 8 2
           [1; 2; 3; 4; 5; 6; 7; 8; 9; 9; 9; 9; 9]).
  - cbn [prime engine_of]. lia.
  - repeat constructor; unfold u64, U64_MOD; lia.
  - simpl. lia.
  - simpl. lia.
  - simpl. lia.
  - simpl. lia.
  - simpl. lia.
  - simpl. lia.
Defined.

(** X26. A call whose result buffer is also its first or its second
    operand does not compute a product: for a nonzero working prime, a
    dimension [n] with [n * n] within [int] and the buffers inside the
    memory, [matrix_multiply] returns 0 and leaves the whole result
    buffer, and with it that operand, zero, whatever the matrices held;
    every cell outside the result buffer is as it was. *)
Theorem galois_matrix_mul_in_place_clears
  (eng : galois_engine) (a b result n : nat) (mem : memory) :
  0 < prime eng < U64_MOD ->
  Forall u64 mem ->
  Z.of_nat (n * n) < 2 ^ 31 ->
  (a + n * n <= length mem)%nat -> (b + n * n <= length mem)%nat ->
  (result + n * n <= length mem)%nat ->
  a = result \/ b = result ->
  let out := symmetrix_galois_matrix_mul eng a b result (Z.of_nat n) mem in
  fst out = 0 /\
  length (snd out) = length mem /\
  (forall c, (result <= c < result + n * n)%nat -> snd out !! c = Some 0) /\
  (forall c, (c < result \/ result + n * n <= c)%nat ->
     snd out !! c = mem !! c).
Proof.
  intros _ _ Hn _ _ Hres Hal.
  exact (matrix_mul_in_place n Hn result mem Hres (prime eng) a b eng
           eq_refl Hal).
Qed.

Lemma galois_matrix_mul_in_place_clears_witness :
  let out := symmetrix_galois_matrix_mul (engine_of 7) 0 0 0 (Z.of_nat 1) [3] in
  fst out = 0 /\
  length (snd out) = 1%nat /\
  (forall c, (0 <= c < 0 + 1 * 1)%nat -> snd out !! c = Some 0) /\
  (forall c, (c < 0 \/ 0 + 1 * 1 <= c)%nat -> snd out !! c = [3] !! c).
Proof.
  apply (galois_matrix_mul_in_place_clears (engine_of 7) 0 0 0 1 [3]).
  - cbn [prime engine_of]. unfold U64_MOD. lia.
  - repeat constructor; unfold u64, U64_MOD; lia.
  - simpl. lia.
  - simpl. lia.
  - simpl. lia.
  - simpl. lia.
  - left. reflexivity.
Defined.

(* ===================================================================== *)
(** * Further properties of the CPU selector *)
(* ===================================================================== *)

Section Selector.

Variable stalks : list resource_stalk.

Let obs (cpu : nat) : Z := stalk_obstruction (stalk_at stalks cpu).

(** The scan keeps the first CPU whose obstruction is the strict minimum
    so far; when no CPU is below [ULLONG_MAX] it keeps [prev_cpu]. *)
Lemma select_scan_first_minimum online prev_cpu :
  (select_scan stalks online prev_cpu = (ULLONG_MAX, prev_cpu) /\
   forall c, In c online -> ULLONG_MAX <= obs c) \/
  (exists pre c post,
     online = pre ++ c :: post /\
     select_scan stalks online prev_cpu = (obs c, Z.of_nat c) /\
     obs c < ULLONG_MAX /\
     (forall c', In c' pre -> obs c < obs c') /\
     (forall c', In c' post -> obs c <= obs c')).
Proof.
  induction online as [|x online IH] using rev_ind.
  - left. split; [reflexivity | intros c []].
  - unfold select_scan in *. rewrite fold_left_app. cbn [fold_left].
    destruct IH as [[Hscan Hall] | (pre & c & post & Hsplit & Hscan & Hlt
                                    & Hpre & Hpost)].
    + rewrite Hscan. fold (obs x).
      destruct (Z.ltb_spec (obs x) ULLONG_MAX) as [Hx|Hx].
      * right. exists online, x, []. repeat split; auto.
        -- intros c' Hc'. specialize (Hall c' Hc'). lia.
        -- intros c' [].
      * left. split; [reflexivity|].
        intros c Hc. apply in_app_or in Hc.
        destruct Hc as [Hc|[<-|[]]]; auto.
    + rewrite Hscan. fold (obs x). right.
      destruct (Z.ltb_spec (obs x) (obs c)) as [Hx|Hx].
      * exists online, x, []. repeat split; auto.
        -- lia.
        -- intros c' Hc'. rewrite Hsplit in Hc'. apply in_app_or in Hc'.
           destruct Hc' as [Hc'|[<-|Hc']].
           ++ specialize (Hpre c' Hc'). lia.
           ++ lia.
           ++ specialize (Hpost c' Hc'). lia.
        -- intros c' [].
      * exists pre, c, (post ++ [x]). repeat split; auto.
        -- rewrite Hsplit, <- app_assoc. reflexivity.
        -- intros c' Hc'. apply in_app_or in Hc'.
           destruct Hc' as [Hc'|[<-|[]]]; auto.
Qed.

End Selector.

(** X9. With selection enabled and every online CPU inside the registry
    of [SYMMETRIX_MAX_CPUS] stalks, [select_cpu] returns [prev_cpu] when
    no online CPU has an obstruction (as the code computes it) below
    [ULLONG_MAX], in particular when none is online; otherwise it
    returns the online CPU whose obstruction is minimal, the first such
    CPU in scan order, and that minimum is below [ULLONG_MAX]. *)
Theorem select_cpu_returns_first_minimum
  (cfg : module_params) (sys : symmetrix_system) (online : list nat)
  (comm : string) (prev_cpu : Z) :
  enable_sheaf_scheduler cfg <> 0 ->
  length (cpu_stalks sys) = SYMMETRIX_MAX_CPUS ->
  (forall c, In c online -> (c < SYMMETRIX_MAX_CPUS)%nat) ->
  let obs := fun cpu => stalk_obstruction (stalk_at (cpu_stalks sys) cpu) in
  let chosen := fst (symmetrix_select_cpu cfg sys online comm prev_cpu) in
  (chosen = prev_cpu /\ forall c, In c online -> ULLONG_MAX <= obs c) \/
  (exists pre c post,
     online = pre ++ c :: post /\ chosen = Z.of_nat c /\
     obs c < ULLONG_MAX /\
     (forall c', In c' pre -> obs c < obs c') /\
     (forall c', In c' post -> obs c <= obs c')).
Proof.
  intros Hen _ _ obs chosen. subst chosen. unfold symmetrix_select_cpu.
  apply Z.eqb_neq in Hen. rewrite Hen.
  destruct (select_scan_first_minimum (cpu_stalks sys) online prev_cpu)
    as [[Hscan Hall] | (pre & c & post & Hsplit & Hscan & Hlt & Hpre & Hpost)].
  - left. rewrite Hscan. cbn. split; [reflexivity | exact Hall].
  - right. exists pre, c, post. rewrite Hscan. cbn. auto.
Qed.

Lemma select_cpu_returns_first_minimum_witness :
  let sys := {| cpu_stalks :=
                  [ {| node_id := 0; resources := [1000; 0; 0; 0; 0; 0];
                       allocated := [3000; 0; 0; 0; 0; 0] |};
                    {| node_id := 1; resources := [1000; 0; 0; 0; 0; 0];
                       allocated := [0; 0; 0; 0; 0; 0] |} ]
                  ++ replicate 254
                       {| node_id := 0; resources := [0; 0; 0; 0; 0; 0];
                          allocated := [0; 0; 0; 0; 0; 0] |};
                h2_cohomology := {| dimension := 0; computed_at := 0;
                                    valid := false |} |} in
  let obs := fun cpu => stalk_obstruction (stalk_at (cpu_stalks sys) cpu) in
  let chosen :=
    fst (symmetrix_select_cpu default_params sys [0%nat; 1%nat] "task" 0) in
  (chosen = 0 /\ forall c, In c [0%nat; 1%nat] -> ULLONG_MAX <= obs c) \/
  (exists pre c post,
     [0%nat; 1%nat] = pre ++ c :: post /\ chosen = Z.of_nat c /\
     obs c < ULLONG_MAX /\
     (forall c', In c' pre -> obs c < obs c') /\
     (forall c', In c' post -> obs c <= obs c')).
Proof.
  cbv zeta.
  apply (select_cpu_returns_first_minimum default_params _ [0%nat; 1%nat]).
  - simpl. lia.
  - vm_compute. reflexivity.
  - intros c [<- | [<- | []]]; unfold SYMMETRIX_MAX_CPUS; lia.
Defined.

Section Obstruction.

Lemma for_range_fixpoint {St} lo n (body : nat -> St -> St) x :
  (forall i, (lo <= i < lo + n)%nat -> body i x = x) ->
  for_range lo n body x = x.
Proof.
  intros H. induction n as [|n IH].
  - reflexivity.
  - rewrite for_range_S, IH; [apply H; lia|].
    intros i Hi. apply H. lia.
Qed.

Lemma select_scan_all_zero stalks online c prev_cpu :
  (forall c', In c' (c :: online) ->
     stalk_obstruction (stalk_at stalks c') = 0) ->
  select_scan stalks (c :: online) prev_cpu = (0, Z.of_nat c).
Proof.
  intros Hall. unfold select_scan. cbn [fold_left].
  rewrite (Hall c) by now left.
  change (0 <? ULLONG_MAX) with true. cbv iota.
  assert (Hrest : forall l, (forall c', In c' l ->
             stalk_obstruction (stalk_at stalks c') = 0) ->
           fold_left
             (fun '(min_obstruction, best_cpu) cpu =>
                let obstruction := stalk_obstruction (stalk_at stalks cpu) in
                if obstruction <? min_obstruction
                then (obstruction, Z.of_nat cpu)
                else (min_obstruction, best_cpu))
             l (0, Z.of_nat c) = (0, Z.of_nat c)).
  { induction l as [|x l IH]; intros Hl.
    - reflexivity.
    - cbn [fold_left]. rewrite (Hl x) by now left.
      change (0 <? 0) with false. cbv iota zeta.
      apply IH. intros c' Hc'. apply Hl. now right. }
  apply Hrest. intros c' Hc'. apply Hall. now right.
Qed.

End Obstruction.

(** X10. A node whose allocation is within the threshold
    [resources[k] * 80 / 100] (computed in 64 bits) for every resource
    kind has obstruction 0. *)
Theorem stalk_obstruction_zero_within_threshold (stalk : resource_stalk) :
  (forall k, (k < SYMMETRIX_RESOURCE_MAX)%nat ->
     rd (allocated stalk) k <= wrap64 (rd (resources stalk) k * 80) / 100) ->
  stalk_obstruction stalk = 0.
Proof.
  intros Hall. unfold stalk_obstruction.
  apply for_range_fixpoint. intros k Hk.
  replace (rd (allocated stalk) k >? wrap64 (rd (resources stalk) k * 80) / 100)
    with false; [reflexivity|].
  symmetry. rewrite Z.gtb_ltb. apply Z.ltb_ge. apply Hall. lia.
Qed.

Lemma stalk_obstruction_zero_within_threshold_witness :
  stalk_obstruction
    {| node_id := 0;
       resources := [1000; 1048576; 10240; 0; 100; 1000];
       allocated := [800; 838860; 8192; 0; 80; 800] |}
  = 0.
Proof.
  apply stalk_obstruction_zero_within_threshold.
  intros k Hk.
  do 6 (destruct k as [|k]; [vm_compute; discriminate|]).
  unfold SYMMETRIX_RESOURCE_MAX in Hk. lia.
Defined.

(* ===================================================================== *)
(** * Module load and unload *)
(* ===================================================================== *)

Section Load.

Lemma init_cpu_stalk_zero cpu : init_cpu_stalk cpu zero_stalk = init_stalk cpu.
Proof. reflexivity. Qed.

Lemma init_cpu_stalk_again cpu :
  init_cpu_stalk cpu (init_stalk cpu) = init_stalk cpu.
Proof. reflexivity. Qed.

Lemma init_stalks_length possible stalks :
  length (init_stalks possible stalks) = length stalks.
Proof.
  unfold init_stalks. revert stalks.
  induction possible as [|x l IH]; intros stalks.
  - reflexivity.
  - cbn [fold_left]. rewrite IH. apply length_insert.
Qed.

(** After the [for_each_possible_cpu] loop every possible CPU has the
    default stalk and every other slot is still zeroed. *)
Lemma init_stalks_lookup possible cpu :
  (cpu < SYMMETRIX_MAX_CPUS)%nat ->
  init_stalks possible (cpu_stalks zero_system) !! cpu
  = Some (if in_dec Nat.eq_dec cpu possible then init_stalk cpu else zero_stalk).
Proof.
  intros Hcpu. induction possible as [|x l IH] using rev_ind.
  - unfold init_stalks, zero_system. cbn [fold_left cpu_stalks].
    destruct (in_dec Nat.eq_dec cpu []) as [[]|_].
    apply lookup_replicate_2. exact Hcpu.
  - unfold init_stalks in *. rewrite fold_left_app. cbn [fold_left].
    fold (init_stalks l (cpu_stalks zero_system)) in *.
    destruct (decide (cpu = x)) as [<-|Hne].
    + rewrite list_lookup_insert_eq
        by (rewrite init_stalks_length; unfold zero_system;
            cbn [cpu_stalks]; rewrite length_replicate; exact Hcpu).
      unfold stalk_at. rewrite IH. cbn [default from_option id].
      destruct (in_dec Nat.eq_dec cpu (l ++ [cpu])) as [_|Hn].
      * f_equal. destruct (in_dec Nat.eq_dec cpu l); reflexivity.
      * exfalso. apply Hn. apply in_or_app. right. now left.
    + rewrite list_lookup_insert_ne by congruence. rewrite IH.
      f_equal.
      destruct (in_dec Nat.eq_dec cpu l) as [Hin|Hnin],
               (in_dec Nat.eq_dec cpu (l ++ [x])) as [Hin'|Hnin']; try reflexivity.
      * exfalso. apply Hnin'. apply in_or_app. now left.
      * exfalso. apply in_app_or in Hin'. destruct Hin' as [?|[?|[]]]; auto.
Qed.

Lemma init_stalk_obstruction cpu : stalk_obstruction (init_stalk cpu) = 0.
Proof. reflexivity. Qed.

End Load.

(** X11. [symmetrix_init] succeeds exactly when the directory, the
    status file and the sampler thread can all be created; then all
    three exist.  On every failure it returns the error ([-ENOMEM], or
    the thread's error) and leaves nothing registered: no proc entry and
    no thread.  [symmetrix_exit] after a successful load removes all
    three. *)
Theorem symmetrix_init_all_or_nothing (env : kernel_env) :
  let code := fst (symmetrix_init env) in
  let st := snd (symmetrix_init env) in
  (code = 0 <->
   proc_mkdir_ok env = true /\ proc_create_ok env = true /\
   kthread_run_err env = 0) /\
  (code = 0 ->
   proc_dir st = true /\ proc_status st = true /\
   cohomology_thread st = true) /\
  (code <> 0 ->
   proc_dir st = false /\ proc_status st = false /\
   cohomology_thread st = false /\
   (proc_mkdir_ok env = false \/ proc_create_ok env = false ->
    code = - ENOMEM) /\
   (proc_mkdir_ok env = true -> proc_create_ok env = true ->
    code = kthread_run_err env)) /\
  proc_dir (symmetrix_exit st) = false /\
  proc_status (symmetrix_exit st) = false /\
  cohomology_thread (symmetrix_exit st) = false.
Proof.
  unfold symmetrix_init, symmetrix_exit, ENOMEM.
  destruct (proc_mkdir_ok env), (proc_create_ok env),
    (Z.eqb_spec (kthread_run_err env) 0) as [He|Hne];
    cbn; try rewrite He; repeat split; intros;
    try tauto; try lia; try discriminate;
    repeat match goal with H : _ /\ _ |- _ => destruct H end;
    try discriminate; try lia; try tauto.
Qed.

(** X12. Whatever the outcome of [symmetrix_init], the registry it
    leaves has the default capacities (CPU 1000, memory 1048576, storage
    10240, FPGA 0, I/O 100, network 1000) and zero allocation for every
    possible CPU below [SYMMETRIX_MAX_CPUS], an all-zero stalk for every
    other slot, and an invalid diagnostic state. *)
Theorem symmetrix_init_stalks (env : kernel_env) (cpu : nat) :
  (cpu < SYMMETRIX_MAX_CPUS)%nat ->
  let g := symmetrix_global (snd (symmetrix_init env)) in
  (In cpu (possible_cpus env) -> stalk_at (cpu_stalks g) cpu = init_stalk cpu) /\
  (~ In cpu (possible_cpus env) -> stalk_at (cpu_stalks g) cpu = zero_stalk) /\
  valid (h2_cohomology g) = false.
Proof.
  intros Hcpu g.
  assert (Hg : cpu_stalks g
               = init_stalks (possible_cpus env) (cpu_stalks zero_system)
               /\ valid (h2_cohomology g) = false).
  { subst g. unfold symmetrix_init.
    destruct (proc_mkdir_ok env), (proc_create_ok env),
      (kthread_run_err env =? 0); cbn; split; reflexivity. }
  destruct Hg as [Hs Hv]. unfold stalk_at. rewrite Hs.
  rewrite init_stalks_lookup by exact Hcpu. cbn [default from_option id].
  repeat split; try exact Hv; intros Hin;
    destruct (in_dec Nat.eq_dec cpu (possible_cpus env)); tauto.
Qed.

Lemma symmetrix_init_stalks_witness :
  let env := {| possible_cpus := [0%nat; 1%nat; 2%nat; 3%nat];
                proc_mkdir_ok := true; proc_create_ok := true;
                kthread_run_err := 0 |} in
  let g := symmetrix_global (snd (symmetrix_init env)) in
  (In 2%nat (possible_cpus env) -> stalk_at (cpu_stalks g) 2 = init_stalk 2) /\
  (~ In 2%nat (possible_cpus env) -> stalk_at (cpu_stalks g) 2 = zero_stalk) /\
  valid (h2_cohomology g) = false.
Proof.
  cbv zeta.
  apply (symmetrix_init_stalks
           {| possible_cpus := [0%nat; 1%nat; 2%nat; 3%nat];
              proc_mkdir_ok := true; proc_create_ok := true;
              kthread_run_err := 0 |} 2).
  unfold SYMMETRIX_MAX_CPUS. lia.
Defined.

(** X13. On a freshly loaded module every possible CPU has obstruction
    0, so [select_cpu] (enabled) returns the first online CPU, whatever
    [prev_cpu] is. *)
Theorem select_cpu_on_fresh_registry
  (env : kernel_env) (cfg : module_params) (c : nat) (online : list nat)
  (comm : string) (prev_cpu : Z) :
  enable_sheaf_scheduler cfg <> 0 ->
  (forall c', In c' (c :: online) ->
     In c' (possible_cpus env) /\ (c' < SYMMETRIX_MAX_CPUS)%nat) ->
  symmetrix_select_cpu cfg (symmetrix_global (snd (symmetrix_init env)))
    (c :: online) comm prev_cpu
  = (Z.of_nat c, [SelectCpuDbg (Z.of_nat c) comm 0]).
Proof.
  intros Hen Honline. unfold symmetrix_select_cpu.
  apply Z.eqb_neq in Hen. rewrite Hen.
  rewrite select_scan_all_zero; [reflexivity|].
  intros c' Hc'. destruct (Honline c' Hc') as [Hposs Hlt].
  assert (Hs : cpu_stalks (symmetrix_global (snd (symmetrix_init env)))
               = init_stalks (possible_cpus env) (cpu_stalks zero_system)).
  { unfold symmetrix_init.
    destruct (proc_mkdir_ok env), (proc_create_ok env),
      (kthread_run_err env =? 0); reflexivity. }
  unfold stalk_at. rewrite Hs, init_stalks_lookup by exact Hlt.
  cbn [default from_option id].
  destruct (in_dec Nat.eq_dec c' (possible_cpus env)); [|tauto].
  apply init_stalk_obstruction.
Qed.

Lemma select_cpu_on_fresh_registry_witness :
  symmetrix_select_cpu default_params
    (symmetrix_global
       (snd (symmetrix_init
               {| possible_cpus := [0%nat; 1%nat; 2%nat; 3%nat];
                  proc_mkdir_ok := true; proc_create_ok := true;
                  kthread_run_err := 0 |})))
    [2%nat; 3%nat] "task" 7
  = (Z.of_nat 2, [SelectCpuDbg (Z.of_nat 2) "task" 0]).
Proof.
  apply select_cpu_on_fresh_registry.
  - simpl. lia.
  - intros c' Hc'. unfold SYMMETRIX_MAX_CPUS. cbn [possible_cpus].
    destruct Hc' as [<-|[<-|[]]]; split; try lia; simpl; tauto.
Defined.

(* ===================================================================== *)
(** * Further properties of the sampler *)
(* ===================================================================== *)

Section SamplerThread.

Lemma lbind_fst {A B} (m : Logged A) (k : A -> Logged B) :
  fst (lbind m k) = fst (k (fst m)).
Proof. unfold lbind. destruct m as [x l1]. cbn. now destruct (k x). Qed.

Lemma lbind_snd {A B} (m : Logged A) (k : A -> Logged B) :
  snd (lbind m k) = snd m ++ snd (k (fst m)).
Proof. unfold lbind. destruct m as [x l1]. cbn. now destruct (k x). Qed.

Lemma cohomology_thread_fn_stalks wakes :
  forall sys, cpu_stalks (fst (cohomology_thread_fn sys wakes)) = cpu_stalks sys.
Proof.
  induction wakes as [|[n j] rest IH]; intros sys.
  - reflexivity.
  - cbn [cohomology_thread_fn]. rewrite lbind_fst, IH. reflexivity.
Qed.

Lemma cohomology_thread_fn_log wakes :
  forall sys, length (snd (cohomology_thread_fn sys wakes)) = length wakes.
Proof.
  induction wakes as [|[n j] rest IH]; intros sys.
  - reflexivity.
  - cbn [cohomology_thread_fn]. rewrite lbind_snd, length_app, IH.
    reflexivity.
Qed.

Lemma cohomology_thread_fn_last wakes :
  forall sys pre n j,
    wakes = pre ++ [(n, j)] ->
    h2_cohomology (fst (cohomology_thread_fn sys wakes))
    = {| dimension := symmetrix_compute_h2_cohomology (cpu_stalks sys) n;
         computed_at := j; valid := true |}.
Proof.
  induction wakes as [|[n0 j0] rest IH]; intros sys pre n j Hw.
  - now destruct pre.
  - cbn [cohomology_thread_fn]. rewrite lbind_fst.
    destruct pre as [|w pre'].
    + cbn [app] in Hw. injection Hw as Hn Hj Hrest.
      subst n0 j0 rest. reflexivity.
    + cbn [app] in Hw. injection Hw as Hw0 Hrest.
      rewrite (IH _ pre' n j Hrest). reflexivity.
Qed.

End SamplerThread.

(** X14. However many cycles the sampler thread runs, it never changes
    the stalk registry and prints one line per cycle.  Without a cycle
    the diagnostic state is left as it was; after at least one, the state
    is valid, stamped with the [jiffies] of the last cycle, and its
    dimension (0 or 1) is the one computed at the last cycle. *)
Theorem cohomology_thread_publishes_last_cycle
  (sys : symmetrix_system) (wakes : list (Z * Z)) :
  let out := cohomology_thread_fn sys wakes in
  cpu_stalks (fst out) = cpu_stalks sys /\
  length (snd out) = length wakes /\
  (wakes = [] -> fst out = sys) /\
  (forall pre n j, wakes = pre ++ [(n, j)] ->
     h2_cohomology (fst out)
     = {| dimension := symmetrix_compute_h2_cohomology (cpu_stalks sys) n;
          computed_at := j; valid := true |} /\
     (dimension (h2_cohomology (fst out)) = 0 \/
      dimension (h2_cohomology (fst out)) = 1)).
Proof.
  intros out. subst out. split; [apply cohomology_thread_fn_stalks|].
  split; [apply cohomology_thread_fn_log|]. split.
  - intros ->. reflexivity.
  - intros pre n j Hw.
    rewrite (cohomology_thread_fn_last wakes sys pre n j Hw).
    split; [reflexivity|]. cbn [dimension].
    unfold symmetrix_compute_h2_cohomology.
    destruct (_ =? 0); auto.
Qed.

(** X15. With at most one stalk to compare there is no pair, and the
    dimension is 0 whatever the registry holds. *)
Theorem h2_dimension_zero_without_pairs
  (stalks : list resource_stalk) (num_stalks : Z) :
  num_stalks <= 1 ->
  symmetrix_compute_h2_cohomology stalks num_stalks = 0.
Proof.
  intros Hn. unfold symmetrix_compute_h2_cohomology.
  assert (Hcases : Z.to_nat num_stalks = 0%nat \/ Z.to_nat num_stalks = 1%nat)
    by lia.
  destruct Hcases as [-> | ->]; reflexivity.
Qed.

Lemma h2_dimension_zero_without_pairs_witness :
  symmetrix_compute_h2_cohomology
    [ {| node_id := 0; resources := [1; 2; 3; 4; 5; 6];
         allocated := [0; 0; 0; 0; 0; 0] |};
      {| node_id := 1; resources := [6; 5; 4; 3; 2; 1];
         allocated := [0; 0; 0; 0; 0; 0] |} ] 1
  = 0.
Proof.
  apply h2_dimension_zero_without_pairs. lia.
Defined.

(* ===================================================================== *)
(** * Further properties of the allocator *)
(* ===================================================================== *)

(** X16. With the allocator enabled, a failed allocation returns NULL
    and prints nothing: if the metadata block cannot be allocated the
    data allocation is not attempted, and if the data allocation fails
    the metadata block is released first. *)
Theorem tensor_alloc_failure_paths {heap} `{KAlloc heap}
  (cfg : module_params) (size : Z) (h : heap) :
  enable_tensor_allocator cfg <> 0 ->
  let out := symmetrix_tensor_alloc cfg size h in
  (forall h1, kmalloc SIZEOF_TENSOR_BLOCK h = (None, h1) ->
     out = ((None, h1), [])) /\
  (forall block h1 h2,
     kmalloc SIZEOF_TENSOR_BLOCK h = (Some block, h1) ->
     kmalloc size h1 = (None, h2) ->
     out = ((None, kfree block h2), [])) /\
  (fst (fst out) = None -> snd out = []).
Proof.
  intros Hen out. subst out. unfold symmetrix_tensor_alloc.
  apply Z.eqb_neq in Hen. rewrite Hen.
  split; [|split].
  - intros h1 Hb. now rewrite Hb.
  - intros block h1 h2 Hb Hd. now rewrite Hb, Hd.
  - destruct (kmalloc SIZEOF_TENSOR_BLOCK h) as [[block|] h1];
      [|reflexivity].
    destruct (kmalloc size h1) as [[ptr|] h2]; [|reflexivity].
    cbn. discriminate.
Qed.

Lemma tensor_alloc_failure_paths_witness :
  let h := {| next_ptr := 4096; budget := 100 |} in
  let out := symmetrix_tensor_alloc default_params 1000 h in
  (forall h1, kmalloc SIZEOF_TENSOR_BLOCK h = (None, h1) ->
     out = ((None, h1), [])) /\
  (forall block h1 h2,
     kmalloc SIZEOF_TENSOR_BLOCK h = (Some block, h1) ->
     kmalloc 1000 h1 = (None, h2) ->
     out = ((None, kfree block h2), [])) /\
  (fst (fst out) = None -> snd out = []).
Proof.
  cbv zeta.
  apply (tensor_alloc_failure_paths default_params 1000
           {| next_ptr := 4096; budget := 100 |}).
  simpl. lia.
Defined.

Section Morton.

Variables x y : Z.

Lemma morton_bit_mask n : (n < 32)%nat -> wrap32 (Z.shiftl 1 (Z.of_nat n)) = 2 ^ Z.of_nat n.
Proof.
  intros Hn. rewrite Z.shiftl_1_l. unfold wrap32, U32_MOD.
  apply Z.mod_small. split; [apply Z.pow_nonneg; lia|].
  apply Z.pow_lt_mono_r; lia.
Qed.

(** The term contributed by bit [n] of an operand, shifted by [sh]
    more: only bit [n + sh] of the result can be set. *)
Lemma morton_term_bits v n sh b :
  (n < 32)%nat -> 0 <= sh <= 32 -> 0 <= b ->
  Z.testbit (wrap64 (Z.shiftl (Z.land v (2 ^ Z.of_nat n)) sh)) b
  = (b =? Z.of_nat n + sh) && Z.testbit v (Z.of_nat n).
Proof.
  intros Hn Hsh Hb.
  assert (Hraw : Z.testbit (Z.shiftl (Z.land v (2 ^ Z.of_nat n)) sh) b
                 = (b =? Z.of_nat n + sh) && Z.testbit v (Z.of_nat n)).
  { rewrite Z.shiftl_spec by lia. rewrite Z.land_spec.
    rewrite Z.pow2_bits_eqb by lia.
    destruct (Z.eqb_spec (Z.of_nat n) (b - sh)) as [He|Hne].
    - rewrite <- He.
      replace (b =? Z.of_nat n + sh) with true
        by (symmetry; apply Z.eqb_eq; lia).
      now rewrite andb_true_r.
    - replace (b =? Z.of_nat n + sh) with false
        by (symmetry; apply Z.eqb_neq; lia).
      now rewrite andb_false_r. }
  unfold wrap64, U64_MOD.
  destruct (Z_lt_dec b 64) as [Hlow|Hhigh].
  - rewrite Z.mod_pow2_bits_low by lia. exact Hraw.
  - rewrite Z.mod_pow2_bits_high by lia.
    replace (b =? Z.of_nat n + sh) with false
      by (symmetry; apply Z.eqb_neq; lia).
    reflexivity.
Qed.

(** After [n] iterations bit [b] of the result is bit [b / 2] of [x]
    ([b] even) or of [y] ([b] odd), for [b / 2 < n]. *)
Lemma morton_prefix_bits n :
  (n <= 32)%nat ->
  forall b, 0 <= b ->
    Z.testbit (for_range 0 n (morton_step x y) 0) b
    = (b / 2 <? Z.of_nat n)
      && (if Z.even b then Z.testbit x (b / 2) else Z.testbit y (b / 2)).
Proof.
  induction n as [|n IH]; intros Hn b Hb.
  - rewrite for_range_0, Z.bits_0.
    replace (b / 2 <? Z.of_nat 0) with false; [reflexivity|].
    symmetry. apply Z.ltb_ge. apply Z.div_pos; lia.
  - rewrite for_range_S. cbn [Nat.add]. unfold morton_step.
    rewrite morton_bit_mask by lia.
    rewrite !Z.lor_spec, IH by lia.
    rewrite (morton_term_bits x n (Z.of_nat n)) by lia.
    rewrite (morton_term_bits y n (Z.of_nat n + 1)) by lia.
    pose proof (Z.div_mod b 2 ltac:(lia)) as Hdm.
    pose proof (Zmod_even b) as Hev.
    pose proof (Z.mod_pos_bound b 2 ltac:(lia)) as Hmb.
    destruct (Z.even b) eqn:Heven.
    + replace (b =? Z.of_nat n + (Z.of_nat n + 1)) with false
        by (symmetry; apply Z.eqb_neq; lia).
      rewrite orb_false_r. cbn [andb].
      destruct (Z.eqb_spec b (Z.of_nat n + Z.of_nat n)) as [He|Hne].
      * replace (b / 2) with (Z.of_nat n) by lia.
        rewrite Z.ltb_irrefl.
        replace (Z.of_nat n <? Z.of_nat (S n)) with true
          by (symmetry; apply Z.ltb_lt; lia).
        reflexivity.
      * cbn [andb]. rewrite orb_false_r. f_equal.
        destruct (Z.ltb_spec (b / 2) (Z.of_nat n)),
                 (Z.ltb_spec (b / 2) (Z.of_nat (S n))); reflexivity || lia.
    + replace (b =? Z.of_nat n + Z.of_nat n) with false
        by (symmetry; apply Z.eqb_neq; lia).
      cbn [andb orb].
      destruct (Z.eqb_spec b (Z.of_nat n + (Z.of_nat n + 1))) as [He|Hne].
      * replace (b / 2) with (Z.of_nat n) by lia.
        rewrite Z.ltb_irrefl.
        replace (Z.of_nat n <? Z.of_nat (S n)) with true
          by (symmetry; apply Z.ltb_lt; lia).
        reflexivity.
      * cbn [andb]. rewrite orb_false_r. f_equal.
        destruct (Z.ltb_spec (b / 2) (Z.of_nat n)),
                 (Z.ltb_spec (b / 2) (Z.of_nat (S n))); reflexivity || lia.
Qed.

End Morton.

(** X17. [symmetrix_morton_encode_2d] interleaves the low 32 bits of its
    operands: bit [2 i] of the result is bit [i] of [x], bit [2 i + 1]
    is bit [i] of [y], and no bit from 64 up is set. *)
Theorem morton_encode_interleaves_bits (x y i : Z) :
  0 <= i ->
  (i < 32 ->
   Z.testbit (symmetrix_morton_encode_2d x y) (2 * i) = Z.testbit x i /\
   Z.testbit (symmetrix_morton_encode_2d x y) (2 * i + 1) = Z.testbit y i) /\
  (64 <= i -> Z.testbit (symmetrix_morton_encode_2d x y) i = false).
Proof.
  intros Hi. unfold symmetrix_morton_encode_2d. split.
  - intros Hlt. rewrite !(morton_prefix_bits x y 32) by lia.
    replace ((2 * i) / 2) with i by (apply Z.div_unique with 0; lia).
    replace ((2 * i + 1) / 2) with i by (apply Z.div_unique with 1; lia).
    assert (He0 : Z.even (2 * i) = true)
      by (rewrite Z.even_mul; reflexivity).
    assert (He1 : Z.even (2 * i + 1) = false)
      by (rewrite Z.add_comm, Z.even_add_mul_2; reflexivity).
    rewrite He0, He1.
    replace (i <? Z.of_nat 32) with true by (symmetry; apply Z.ltb_lt; lia).
    split; reflexivity.
  - intros Hhigh. rewrite (morton_prefix_bits x y 32) by lia.
    replace (i / 2 <? Z.of_nat 32) with false; [reflexivity|].
    symmetry. apply Z.ltb_ge. apply Z.div_le_lower_bound; lia.
Qed.

Lemma morton_encode_interleaves_bits_witness :
  (5 < 32 ->
   Z.testbit (symmetrix_morton_encode_2d 1000 77) (2 * 5) = Z.testbit 1000 5 /\
   Z.testbit (symmetrix_morton_encode_2d 1000 77) (2 * 5 + 1) = Z.testbit 77 5) /\
  (64 <= 5 -> Z.testbit (symmetrix_morton_encode_2d 1000 77) 5 = false).
Proof.
  apply (morton_encode_interleaves_bits 1000 77 5). lia.
Defined.

Section LocalityIndex.

Lemma bits_above_range v k n :
  0 <= v < 2 ^ k -> 0 <= k <= n -> Z.testbit v n = false.
Proof.
  intros Hv Hk. rewrite <- (Z.mod_small v (2 ^ k)) by lia.
  apply Z.mod_pow2_bits_high. lia.
Qed.

Lemma land_mask16_bits v i :
  0 <= i < 16 -> Z.testbit (Z.land v 65535) i = Z.testbit v i.
Proof.
  intros Hi. rewrite Z.land_spec. change 65535 with (Z.ones 16).
  rewrite Z.ones_spec_low by lia. apply andb_true_r.
Qed.

Lemma land_mask16_high v i :
  16 <= i -> Z.testbit (Z.land v 65535) i = false.
Proof.
  intros Hi. rewrite Z.land_spec. change 65535 with (Z.ones 16).
  rewrite Z.ones_spec_high by lia. apply andb_false_r.
Qed.

(** Bit [p] of a size below [2^32] is a bit of its locality index: bit
    [2 p] for the low half-word, bit [2 (p - 16) + 1] for the high one. *)
Lemma locality_index_bit size p :
  0 <= p < 32 ->
  Z.testbit size p
  = Z.testbit
      (wrap32 (symmetrix_morton_encode_2d
                 (Z.land size 65535) (Z.land (Z.shiftr size 16) 65535)))
      (if p <? 16 then 2 * p else 2 * (p - 16) + 1).
Proof.
  intros Hp. unfold wrap32, U32_MOD, symmetrix_morton_encode_2d.
  destruct (Z.ltb_spec p 16) as [Hlow|Hhigh].
  - rewrite Z.mod_pow2_bits_low by lia.
    rewrite (morton_prefix_bits _ _ 32) by lia.
    replace ((2 * p) / 2) with p by (apply Z.div_unique with 0; lia).
    replace (Z.even (2 * p)) with true
      by (rewrite Z.even_mul; reflexivity).
    replace (p <? Z.of_nat 32) with true by (symmetry; apply Z.ltb_lt; lia).
    cbn [andb]. symmetry. apply land_mask16_bits. lia.
  - rewrite Z.mod_pow2_bits_low by lia.
    rewrite (morton_prefix_bits _ _ 32) by lia.
    replace ((2 * (p - 16) + 1) / 2) with (p - 16)
      by (apply Z.div_unique with 1; lia).
    replace (Z.even (2 * (p - 16) + 1)) with false
      by (rewrite Z.add_comm, Z.even_add_mul_2; reflexivity).
    replace (p - 16 <? Z.of_nat 32) with true
      by (symmetry; apply Z.ltb_lt; lia).
    cbn [andb]. rewrite land_mask16_bits by lia.
    rewrite Z.shiftr_spec by lia. f_equal. lia.
Qed.

End LocalityIndex.

(** X18. The locality index the allocator derives from a size keeps
    every bit of a size below [2^32]: two different such sizes never get
    the same index. *)
Theorem tensor_alloc_locality_index_injective (size size' : Z) :
  0 <= size < 2 ^ 32 -> 0 <= size' < 2 ^ 32 ->
  size <> size' ->
  wrap32 (symmetrix_morton_encode_2d
            (Z.land size 65535) (Z.land (Z.shiftr size 16) 65535))
  <> wrap32 (symmetrix_morton_encode_2d
               (Z.land size' 65535) (Z.land (Z.shiftr size' 16) 65535)).
Proof.
  intros Hs Hs' Hne Heq. apply Hne. apply Z.bits_inj'. intros p Hp.
  destruct (Z_lt_dec p 32) as [Hlow|Hhigh].
  - rewrite (locality_index_bit size p), (locality_index_bit size' p) by lia.
    now rewrite Heq.
  - rewrite (bits_above_range size 32 p), (bits_above_range size' 32 p)
      by lia.
    reflexivity.
Qed.

Lemma tensor_alloc_locality_index_injective_witness :
  wrap32 (symmetrix_morton_encode_2d
            (Z.land 1000 65535) (Z.land (Z.shiftr 1000 16) 65535))
  <> wrap32 (symmetrix_morton_encode_2d
               (Z.land 66536 65535) (Z.land (Z.shiftr 66536 16) 65535)).
Proof.
  apply (tensor_alloc_locality_index_injective 1000 66536); lia.
Defined.

(* ===================================================================== *)
(** * Inline helpers of symmetrix.h *)
(* ===================================================================== *)

Section HeaderHelpers.

Lemma pow2_minus_one_ones k : 0 <= k -> 2 ^ k - 1 = Z.ones k.
Proof. intros Hk. rewrite Z.ones_equiv. lia. Qed.

Lemma pow2_u64 k : 0 <= k < 64 -> 0 < 2 ^ k < U64_MOD.
Proof.
  intros Hk. unfold U64_MOD. split.
  - apply Z.pow_pos_nonneg; lia.
  - apply Z.pow_lt_mono_r; lia.
Qed.

(** Masking a 64-bit value with the 64-bit image of a mask is masking
    with the mask itself. *)
Lemma land_wrap64_r z m : u64 z -> Z.land z (wrap64 m) = Z.land z m.
Proof.
  intros Hz. apply Z.bits_inj'. intros i Hi.
  rewrite !Z.land_spec. unfold wrap64, U64_MOD.
  destruct (Z_lt_dec i 64) as [Hlow|Hhigh].
  - now rewrite Z.mod_pow2_bits_low by lia.
  - rewrite (bits_above_range z 64 i) by (unfold u64, U64_MOD in Hz; lia).
    reflexivity.
Qed.

Lemma land_align64 z :
  u64 z -> Z.land z (wrap64 (Z.lnot (L1_CACHE_BYTES - 1))) = 64 * (z / 64).
Proof.
  intros Hz. rewrite land_wrap64_r by exact Hz.
  change (L1_CACHE_BYTES - 1) with (Z.ones 6).
  rewrite <- Z.ldiff_land, Z.ldiff_ones_r by lia.
  rewrite Z.shiftl_mul_pow2, Z.shiftr_div_pow2 by lia.
  change (2 ^ 6) with 64. lia.
Qed.

End HeaderHelpers.

(** X19. On 64-bit values [symmetrix_is_power_of_two] is exact: it
    returns true for the powers of two [2^0 .. 2^63] and for nothing
    else (in particular not for 0). *)
Theorem is_power_of_two_exact (n : Z) :
  u64 n ->
  (symmetrix_is_power_of_two n = true <-> exists k, 0 <= k < 64 /\ n = 2 ^ k).
Proof.
  intros Hn. unfold symmetrix_is_power_of_two, u64, U64_MOD in *. split.
  - intros H. apply andb_true_iff in H. destruct H as [Hnz Hland].
    apply negb_true_iff, Z.eqb_neq in Hnz. apply Z.eqb_eq in Hland.
    rewrite wrap64_small in Hland by (unfold u64, U64_MOD; lia).
    assert (Hpos : 0 < n) by lia.
    pose proof (Z.log2_spec n Hpos) as Hlog.
    pose proof (Z.log2_nonneg n) as Hk.
    set (k := Z.log2 n) in *.
    rewrite Z.pow_succ_r in Hlog by lia.
    exists k. split.
    + split; [lia|].
      apply (Z.pow_lt_mono_r_iff 2); lia.
    + destruct (Z.eq_dec n (2 ^ k)) as [He|Hne]; [exact He|exfalso].
      assert (Hlog' : Z.log2 (n - 1) = k).
      { apply Z.log2_unique; [lia|]. rewrite Z.pow_succ_r by lia. lia. }
      assert (Hb1 : Z.testbit (n - 1) k = true).
      { rewrite <- Hlog'. apply Z.bit_log2.
        pose proof (Z.pow_pos_nonneg 2 k ltac:(lia) Hk). lia. }
      assert (Hb0 : Z.testbit n k = true) by (apply Z.bit_log2; lia).
      assert (Hb : Z.testbit (Z.land n (n - 1)) k = true)
        by (rewrite Z.land_spec, Hb0, Hb1; reflexivity).
      rewrite Hland, Z.bits_0 in Hb. discriminate.
  - intros (k & Hk & ->).
    pose proof (pow2_u64 k Hk) as Hp. unfold U64_MOD in Hp.
    apply andb_true_iff. split.
    + apply negb_true_iff, Z.eqb_neq. lia.
    + apply Z.eqb_eq.
      rewrite wrap64_small by (unfold u64, U64_MOD; lia).
      rewrite pow2_minus_one_ones, Z.land_ones by lia.
      apply Z.mod_same. lia.
Qed.

Lemma is_power_of_two_exact_witness :
  symmetrix_is_power_of_two 4096 = true <->
  exists k, 0 <= k < 64 /\ 4096 = 2 ^ k.
Proof.
  apply is_power_of_two_exact. unfold u64, U64_MOD. lia.
Defined.

(** X20. For a modulus that is a power of two, [symmetrix_fast_mod] is
    the remainder: [fast_mod(a, 2^k) = a mod 2^k] for [0 <= k < 64]; with
    modulus 0 it returns [a] unchanged. *)
Theorem fast_mod_power_of_two (a k : Z) :
  u64 a -> 0 <= k < 64 ->
  symmetrix_fast_mod a (2 ^ k) = a mod 2 ^ k /\
  symmetrix_fast_mod a 0 = a.
Proof.
  intros Ha Hk. unfold symmetrix_fast_mod. split.
  - pose proof (pow2_u64 k Hk) as Hp.
    rewrite wrap64_small by (unfold u64; lia).
    rewrite pow2_minus_one_ones by lia. apply Z.land_ones. lia.
  - change (wrap64 (0 - 1)) with (Z.ones 64).
    rewrite Z.land_ones by lia. apply Z.mod_small. exact Ha.
Qed.

Lemma fast_mod_power_of_two_witness :
  symmetrix_fast_mod 1000003 (2 ^ 12) = 1000003 mod 2 ^ 12 /\
  symmetrix_fast_mod 1000003 0 = 1000003.
Proof.
  apply fast_mod_power_of_two; unfold u64, U64_MOD; lia.
Defined.

(** X21. [symmetrix_cache_line_align] rounds an address up to the next
    multiple of 64: for [addr <= 2^64 - 64] the result is a multiple of
    64 in [addr, addr + 64); for a larger 64-bit address the sum wraps
    and the result is 0. *)
Theorem cache_line_align_rounds_up (addr : Z) :
  u64 addr ->
  let aligned := symmetrix_cache_line_align addr in
  (addr <= 2 ^ 64 - 64 ->
   aligned mod 64 = 0 /\ addr <= aligned < addr + 64) /\
  (2 ^ 64 - 64 < addr -> aligned = 0).
Proof.
  intros Ha aligned. subst aligned. unfold symmetrix_cache_line_align.
  unfold u64, U64_MOD in Ha.
  replace (wrap64 (wrap64 (addr + L1_CACHE_BYTES) - 1))
    with (wrap64 (addr + 63))
    by (unfold Z.sub; rewrite wrap64_add_l; f_equal;
        unfold L1_CACHE_BYTES; lia).
  rewrite land_align64 by apply Z.mod_pos_bound, eq_refl.
  split.
  - intros Hfit.
    rewrite wrap64_small by (unfold u64, U64_MOD; lia).
    pose proof (Z.div_mod (addr + 63) 64 ltac:(lia)) as Hdm.
    pose proof (Z.mod_pos_bound (addr + 63) 64 ltac:(lia)) as Hb.
    split.
    + rewrite Z.mul_comm. apply Z.mod_mul. lia.
    + lia.
  - intros Hwrap.
    assert (Hw : wrap64 (addr + 63) = addr + 63 - 2 ^ 64).
    { unfold wrap64, U64_MOD.
      rewrite <- (Z.mod_add (addr + 63) (-1) (2 ^ 64)) by lia.
      apply Z.mod_small. lia. }
    rewrite Hw. rewrite Z.div_small by lia. reflexivity.
Qed.

Lemma cache_line_align_rounds_up_witness :
  let aligned := symmetrix_cache_line_align 4097 in
  (4097 <= 2 ^ 64 - 64 ->
   aligned mod 64 = 0 /\ 4097 <= aligned < 4097 + 64) /\
  (2 ^ 64 - 64 < 4097 -> aligned = 0).
Proof.
  apply (cache_line_align_rounds_up 4097). unfold u64, U64_MOD. lia.
Defined.

Section NextPowerOfTwo.

Variable x : Z.
Hypothesis Hx : 0 < x < 2 ^ 64.

(** [v] has bit [i] set exactly when [x] has a bit set among the [w]
    positions from [i] up. *)
Let window (w v : Z) : Prop :=
  forall i, 0 <= i ->
    (Z.testbit v i = true <-> exists j, i <= j < i + w /\ Z.testbit x j = true).

Lemma window_start : window 1 x.
Proof.
  intros i Hi. split.
  - intros Hb. exists i. split; [lia | exact Hb].
  - intros (j & Hj & Hb). now replace i with j by lia.
Qed.

Lemma window_smear s w v :
  0 < s <= w -> window w v -> window (w + s) (smear s v).
Proof.
  intros Hs Hw i Hi. unfold smear.
  rewrite Z.lor_spec, Z.shiftr_spec by lia. rewrite orb_true_iff.
  rewrite (Hw i Hi), (Hw (i + s) ltac:(lia)). split.
  - intros [(j & Hj & Hb) | (j & Hj & Hb)]; exists j; split; auto; lia.
  - intros (j & Hj & Hb).
    destruct (Z_lt_dec j (i + w)).
    + left. exists j. split; [lia | exact Hb].
    + right. exists j. split; [lia | exact Hb].
Qed.

Lemma smear_all_ones :
  smear 32 (smear 16 (smear 8 (smear 4 (smear 2 (smear 1 x)))))
  = Z.ones (Z.log2 x + 1).
Proof.
  assert (Hw : window 64
                 (smear 32 (smear 16 (smear 8 (smear 4 (smear 2 (smear 1 x))))))).
  { apply (window_smear 32 32); [lia|].
    apply (window_smear 16 16); [lia|].
    apply (window_smear 8 8); [lia|].
    apply (window_smear 4 4); [lia|].
    apply (window_smear 2 2); [lia|].
    apply (window_smear 1 1); [lia|].
    exact window_start. }
  pose proof (Z.log2_nonneg x) as HL0.
  assert (HL : Z.log2 x < 64) by (apply Z.log2_lt_pow2; lia).
  apply Z.bits_inj'. intros i Hi.
  destruct (Z_le_dec i (Z.log2 x)) as [Hle|Hgt].
  - rewrite Z.ones_spec_low by lia.
    apply (Hw i Hi). exists (Z.log2 x). split; [lia|].
    apply Z.bit_log2. lia.
  - rewrite Z.ones_spec_high by lia.
    destruct (Z.testbit _ i) eqn:Hb; [exfalso | reflexivity].
    apply (Hw i Hi) in Hb. destruct Hb as (j & Hj & Hb).
    rewrite Z.bits_above_log2 in Hb by lia. discriminate.
Qed.

End NextPowerOfTwo.

(** X22. [symmetrix_next_power_of_two] returns 1 for 0; for
    [1 <= n <= 2^63] it returns the smallest power of two that is at
    least [n]; above [2^63] the result does not fit and it returns 0. *)
Theorem next_power_of_two_smallest (n : Z) :
  u64 n ->
  let p := symmetrix_next_power_of_two n in
  (n = 0 -> p = 1) /\
  (1 <= n <= 2 ^ 63 ->
   (exists k, 0 <= k <= 63 /\ p = 2 ^ k) /\ n <= p < 2 * n) /\
  (2 ^ 63 < n -> p = 0).
Proof.
  intros Hn p. subst p. unfold u64, U64_MOD in Hn.
  split; [intros ->; reflexivity|].
  assert (Hgen : 1 <= n ->
            symmetrix_next_power_of_two n
            = if n =? 1 then 1 else wrap64 (2 ^ (Z.log2 (n - 1) + 1))).
  { intros Hpos. unfold symmetrix_next_power_of_two.
    replace (n =? 0) with false by (symmetry; apply Z.eqb_neq; lia).
    destruct (Z.eqb_spec n 1) as [->|Hne]; [reflexivity|].
    rewrite (wrap64_small (n - 1)) by (unfold u64, U64_MOD; lia).
    cbv zeta. rewrite smear_all_ones by lia.
    rewrite Z.ones_equiv. f_equal. lia. }
  split.
  - intros Hr. rewrite Hgen by lia.
    destruct (Z.eqb_spec n 1) as [->|Hne].
    + split; [exists 0; split; [lia | reflexivity] | lia].
    + pose proof (Z.log2_spec (n - 1) ltac:(lia)) as Hlog.
      pose proof (Z.log2_nonneg (n - 1)) as HL0.
      assert (HL : Z.log2 (n - 1) < 63) by (apply Z.log2_lt_pow2; lia).
      set (L := Z.log2 (n - 1)) in *.
      replace (Z.succ L) with (L + 1) in Hlog by lia.
      assert (Hp : 2 ^ (L + 1) < 2 ^ 64)
        by (apply Z.pow_lt_mono_r; lia).
      rewrite wrap64_small by (unfold u64, U64_MOD; lia).
      split; [exists (L + 1); split; [lia | reflexivity]|].
      rewrite Z.pow_add_r in * by lia. change (2 ^ 1) with 2 in *. lia.
  - intros Hbig. rewrite Hgen by lia.
    replace (n =? 1) with false by (symmetry; apply Z.eqb_neq; lia).
    replace (Z.log2 (n - 1)) with 63
      by (symmetry; apply Z.log2_unique; [lia|]; change (Z.succ 63) with 64; lia).
    reflexivity.
Qed.

Lemma next_power_of_two_smallest_witness :
  let p := symmetrix_next_power_of_two 1000 in
  (1000 = 0 -> p = 1) /\
  (1 <= 1000 <= 2 ^ 63 ->
   (exists k, 0 <= k <= 63 /\ p = 2 ^ k) /\ 1000 <= p < 2 * 1000) /\
  (2 ^ 63 < 1000 -> p = 0).
Proof.
  apply (next_power_of_two_smallest 1000). unfold u64, U64_MOD. lia.
Defined.

(* ===================================================================== *)
(** * The sampler on a fresh registry *)
(* ===================================================================== *)

(** X23. On a freshly loaded module whose first [n] CPUs are all
    possible ([n <= SYMMETRIX_MAX_CPUS]), a sampler cycle over [n] online
    CPUs publishes dimension 0: all stalks carry the same default
    capacities. *)
Theorem sampler_on_fresh_registry (env : kernel_env) (n jiffies : Z) :
  n <= Z.of_nat SYMMETRIX_MAX_CPUS ->
  (forall c, (c < Z.to_nat n)%nat -> In c (possible_cpus env)) ->
  let g := symmetrix_global (snd (symmetrix_init env)) in
  h2_cohomology (fst (cohomology_thread_cycle g n jiffies))
  = {| dimension := 0; computed_at := jiffies; valid := true |}.
Proof.
  intros Hn Hposs g.
  assert (Hs : cpu_stalks g
               = init_stalks (possible_cpus env) (cpu_stalks zero_system)).
  { subst g. unfold symmetrix_init.
    destruct (proc_mkdir_ok env), (proc_create_ok env),
      (kthread_run_err env =? 0); reflexivity. }
  unfold cohomology_thread_cycle.
  cbn [fst lbind pr_msg lret h2_cohomology].
  f_equal. unfold symmetrix_compute_h2_cohomology.
  rewrite obstruction_sum_exact.
  replace (pair_total resources (cpu_stalks g) (Z.to_nat n)) with 0;
    [reflexivity|].
  symmetry. apply pair_total_zero. intros i j k Hi Hj Hk.
  assert (Hat : forall c, (c < Z.to_nat n)%nat ->
            stalk_at (cpu_stalks g) c = init_stalk c).
  { intros c Hc. unfold stalk_at. rewrite Hs.
    rewrite init_stalks_lookup by lia. cbn [default from_option id].
    destruct (in_dec Nat.eq_dec c (possible_cpus env)) as [_|Hnot];
      [reflexivity|].
    exfalso. apply Hnot. now apply Hposs. }
  rewrite (Hat i Hi), (Hat j Hj). reflexivity.
Qed.

Lemma sampler_on_fresh_registry_witness :
  let env := {| possible_cpus := [0%nat; 1%nat; 2%nat; 3%nat];
                proc_mkdir_ok := true; proc_create_ok := true;
                kthread_run_err := 0 |} in
  let g := symmetrix_global (snd (symmetrix_init env)) in
  h2_cohomology (fst (cohomology_thread_cycle g 4 300))
  = {| dimension := 0; computed_at := 300; valid := true |}.
Proof.
  cbv zeta.
  apply (sampler_on_fresh_registry
           {| possible_cpus := [0%nat; 1%nat; 2%nat; 3%nat];
              proc_mkdir_ok := true; proc_create_ok := true;
              kthread_run_err := 0 |} 4 300).
  - unfold SYMMETRIX_MAX_CPUS. lia.
  - intros c Hc. cbn [possible_cpus].
    do 4 (destruct c as [|c]; [simpl; tauto|]).
    simpl in Hc. lia.
Defined.

(* ===================================================================== *)
(** * MSI counters interface and device bring-up *)
(* ===================================================================== *)

Section MsiCounters.

Lemma atomic64_inc_exact c : 0 <= c < 2 ^ 63 - 1 -> atomic64_inc c = c + 1.
Proof.
  intros Hc. unfold atomic64_inc. apply wrap_s64_small. unfold s64. lia.
Qed.

Lemma wait_not_busy_ready sts :
  (exists status, In status sts /\ Z.land status MSI_STATUS_BUSY = 0) ->
  exists status, wait_not_busy sts = Some status.
Proof.
  intros (status & Hin & Hready). induction sts as [|x sts IH].
  - destruct Hin.
  - cbn [wait_not_busy].
    destruct (Z.eqb_spec (Z.land x MSI_STATUS_BUSY) 0) as [_|Hbusy].
    + now exists x.
    + destruct Hin as [->|Hin]; [contradiction | now apply IH].
Qed.

(** One access of an active engine that the device answers: it returns
    and moves the counters consistently. *)
Lemma msi_access_counters e dev addr size k :
  encoding_active e <> 0 ->
  amplification_ops e = k ->
  cache_hits e + cache_misses e = k ->
  0 <= reconstructions e <= cache_misses e ->
  0 <= cache_hits e ->
  k < 2 ^ 63 - 1 ->
  (addr < boundary_size e \/
   exists status, In status (statuses dev) /\
                  Z.land status MSI_STATUS_BUSY = 0) ->
  exists out e',
    msi_amplify_storage_access (Some e) dev addr size = Some (out, Some e') /\
    encoding_active e' = encoding_active e /\
    amplification_ops e' = k + 1 /\
    cache_hits e' + cache_misses e' = k + 1 /\
    0 <= reconstructions e' <= cache_misses e' /\
    0 <= cache_hits e' /\
    boundary_size e' = boundary_size e /\
    bulk_size e' = bulk_size e /\
    amplification_ratio e' = amplification_ratio e.
Proof.
  intros Hact Hops Hsum Hrec Hhits Hbound Hdev.
  unfold msi_amplify_storage_access.
  apply Z.eqb_neq in Hact. rewrite Hact.
  assert (Hinc_ops : atomic64_inc (amplification_ops e) = k + 1)
    by (rewrite atomic64_inc_exact; lia).
  assert (Hh : atomic64_inc (cache_hits e) = cache_hits e + 1)
    by (rewrite atomic64_inc_exact; lia).
  assert (Hm : atomic64_inc (cache_misses e) = cache_misses e + 1)
    by (rewrite atomic64_inc_exact; lia).
  assert (Hr : atomic64_inc (reconstructions e) = reconstructions e + 1)
    by (rewrite atomic64_inc_exact; lia).
  destruct (Z.ltb_spec addr (boundary_size e)) as [Hhit|Hmiss].
  - eexists _, _. split; [reflexivity|].
    cbn [encoding_active amplification_ops cache_hits cache_misses
         reconstructions boundary_size bulk_size amplification_ratio].
    rewrite Hinc_ops, Hh. repeat split; lia.
  - destruct Hdev as [Hlt|Hready]; [lia|].
    destruct (wait_not_busy_ready _ Hready) as (status & Hwait).
    rewrite Hwait.
    destruct (Z.eqb_spec (Z.land status MSI_STATUS_ERROR) 0) as [Hok|Herr];
      cbn [negb].
    + eexists _, _. split; [reflexivity|].
      cbn [encoding_active amplification_ops cache_hits cache_misses
           reconstructions boundary_size bulk_size amplification_ratio].
      rewrite Hinc_ops, Hm, Hr. repeat split; lia.
    + eexists _, _. split; [reflexivity|].
      cbn [encoding_active amplification_ops cache_hits cache_misses
           reconstructions boundary_size bulk_size amplification_ratio].
      rewrite Hinc_ops, Hm. repeat split; lia.
Qed.

(** The counters of an active engine stay consistent over any sequence
    of accesses the device answers. *)
Lemma msi_accesses_counters reqs :
  forall e k,
    encoding_active e <> 0 ->
    amplification_ops e = k ->
    cache_hits e + cache_misses e = k ->
    0 <= reconstructions e <= cache_misses e ->
    0 <= cache_hits e ->
    k + Z.of_nat (length reqs) < 2 ^ 63 ->
    Forall (fun '(dev, logical_address, _) =>
              logical_address < boundary_size e \/
              exists status, In status (statuses dev) /\
                             Z.land status MSI_STATUS_BUSY = 0) reqs ->
    exists addrs e',
      msi_accesses (Some e) reqs = Some (addrs, Some e') /\
      length addrs = length reqs /\
      amplification_ops e' = k + Z.of_nat (length reqs) /\
      cache_hits e' + cache_misses e' = amplification_ops e' /\
      0 <= reconstructions e' <= cache_misses e' /\
      0 <= cache_hits e' /\
      boundary_size e' = boundary_size e /\
      bulk_size e' = bulk_size e /\
      amplification_ratio e' = amplification_ratio e.
Proof.
  induction reqs as [|[[dev addr] size] rest IH];
    intros e k Hact Hops Hsum Hrec Hhits Hbound Hdev.
  - exists [], e. cbn [msi_accesses length]. repeat split; try lia.
  - cbn [length] in Hbound. rewrite Nat2Z.inj_succ in Hbound.
    apply Forall_cons in Hdev. destruct Hdev as [Hhead Htail].
    destruct (msi_access_counters e dev addr size k)
      as (out & e1 & Hstep & Hact1 & Hops1 & Hsum1 & Hrec1 & Hhits1
          & Hb1 & Hbulk1 & Hratio1); try assumption; try lia.
    assert (Hact1' : encoding_active e1 <> 0) by (rewrite Hact1; exact Hact).
    assert (Htail' :
              Forall (fun '(dev, logical_address, _) =>
                        logical_address < boundary_size e1 \/
                        exists status, In status (statuses dev) /\
                                       Z.land status MSI_STATUS_BUSY = 0) rest)
      by (rewrite Hb1; exact Htail).
    destruct (IH e1 (k + 1) Hact1' Hops1 Hsum1 Hrec1 Hhits1 ltac:(lia) Htail')
      as (addrs & e' & Hrun & Hlen & Hops' & Hsum' & Hrec' & Hhits'
          & Hb' & Hbulk' & Hratio').
    cbn [msi_accesses]. rewrite Hstep, Hrun.
    exists (out :: addrs), e'. cbn [length]. rewrite Nat2Z.inj_succ.
    repeat split; try lia; congruence.
Qed.

End MsiCounters.

(** X24. Started from the engine the probe publishes, any sequence of
    fewer than [2^57] accesses in which the device answers every miss
    returns one address per access and leaves consistent counters:
    operations = number of accesses = hits + misses, reconstructions at
    most misses.  The hit rate the status report derives from them is
    not printed without accesses and is at most 100 otherwise. *)
Theorem msi_counters_consistent (reqs : list (device_reply * Z * Z)) :
  Z.of_nat (length reqs) < 2 ^ 57 ->
  Forall (fun '(dev, logical_address, _) =>
            logical_address < MSI_HOLOGRAPHIC_BOUNDARY \/
            exists status, In status (statuses dev) /\
                           Z.land status MSI_STATUS_BUSY = 0) reqs ->
  exists addrs e,
    msi_accesses (Some fresh_engine) reqs = Some (addrs, Some e) /\
    length addrs = length reqs /\
    amplification_ops e = Z.of_nat (length reqs) /\
    cache_hits e + cache_misses e = amplification_ops e /\
    0 <= reconstructions e <= cache_misses e /\
    0 <= cache_hits e /\
    forall stats,
      match proc_show_hit_rate (msi_get_performance_stats (Some e) stats) with
      | None => reqs = []
      | Some rate => reqs <> [] /\ 0 <= rate <= 100
      end.
Proof.
  intros Hlen Hdev.
  destruct (msi_accesses_counters reqs fresh_engine 0)
    as (addrs & e & Hrun & Hl & Hops & Hsum & Hrec & Hhits & _);
    cbn [encoding_active amplification_ops cache_hits cache_misses
         reconstructions boundary_size fresh_engine];
    try lia; try exact Hdev.
  exists addrs, e. rewrite Z.add_0_l in Hops.
  repeat split; try assumption; try lia.
  intros stats. unfold proc_show_hit_rate, msi_get_performance_stats.
  cbn [st_cache_hits st_cache_misses].
  assert (Hm : 0 <= cache_misses e) by lia.
  rewrite (wrap64_small (cache_hits e)) by (unfold u64, U64_MOD; lia).
  rewrite (wrap64_small (cache_misses e)) by (unfold u64, U64_MOD; lia).
  rewrite (wrap64_small (cache_hits e + cache_misses e))
    by (unfold u64, U64_MOD; lia).
  rewrite (wrap64_small (cache_hits e * 100)) by (unfold u64, U64_MOD; lia).
  rewrite Hsum, Hops.
  destruct reqs as [|r reqs'].
  - reflexivity.
  - cbn [length] in *. rewrite Nat2Z.inj_succ in *.
    replace (Z.succ (Z.of_nat (length reqs')) >? 0) with true
      by (symmetry; apply Z.gtb_lt; lia).
    split; [discriminate|]. split.
    + apply Z.div_pos; lia.
    + apply Z.div_le_upper_bound; lia.
Qed.

Lemma msi_counters_consistent_witness :
  let reqs :=
    [ ({| statuses := []; addr_lo := 0; addr_hi := 0 |}, 4096, 512);
      ({| statuses := [2; 2; 1]; addr_lo := 77; addr_hi := 1 |},
       MSI_HOLOGRAPHIC_BOUNDARY + 5, 512);
      ({| statuses := [2; 5]; addr_lo := 0; addr_hi := 0 |},
       MSI_HOLOGRAPHIC_BOUNDARY + 9, 512) ] in
  exists addrs e,
    msi_accesses (Some fresh_engine) reqs = Some (addrs, Some e) /\
    length addrs = length reqs /\
    amplification_ops e = Z.of_nat (length reqs) /\
    cache_hits e + cache_misses e = amplification_ops e /\
    0 <= reconstructions e <= cache_misses e /\
    0 <= cache_hits e /\
    forall stats,
      match proc_show_hit_rate (msi_get_performance_stats (Some e) stats) with
      | None => reqs = []
      | Some rate => reqs <> [] /\ 0 <= rate <= 100
      end.
Proof.
  cbv zeta. apply msi_counters_consistent.
  - simpl. lia.
  - apply Forall_cons. split; [left; vm_compute; reflexivity|].
    apply Forall_cons. split.
    { right. exists 1. split; [simpl; tauto | reflexivity]. }
    apply Forall_cons. split.
    { right. exists 5. split; [simpl; tauto | reflexivity]. }
    constructor.
Defined.

(** X25. [msi_fpga_probe] on an unbound device either succeeds, when
    every step succeeds, and then holds the engine memory, the enabled
    device, its regions, the MMIO mapping, the DMA buffer and the IRQ and
    publishes an engine with zeroed counters; or it fails with the error
    of the first failing step ([-ENOMEM] for an allocation or mapping)
    and has released everything again, publishing nothing.
    [msi_fpga_remove] after a successful probe releases all six and
    withdraws the published engine. *)
Theorem msi_probe_all_or_nothing (env : probe_env) :
  let code := fst (msi_fpga_probe env unbound) in
  let st := snd (msi_fpga_probe env unbound) in
  (code = 0 <->
   kzalloc_ok env = true /\ pci_enable_device_ret env = 0 /\
   pci_request_regions_ret env = 0 /\ pci_ioremap_bar_ok env = true /\
   dma_set_mask_ret env = 0 /\ dma_alloc_coherent_ok env = true /\
   request_irq_ret env = 0) /\
  (code = 0 ->
   st = {| engine_allocated := true; device_enabled := true;
           regions_requested := true; mmio_mapped := true;
           dma_allocated := true; irq_requested := true;
           drvdata := Some fresh_engine;
           global_msi_engine := Some fresh_engine |} /\
   msi_fpga_remove st
   = {| engine_allocated := false; device_enabled := false;
        regions_requested := false; mmio_mapped := false;
        dma_allocated := false; irq_requested := false;
        drvdata := Some fresh_engine; global_msi_engine := None |}) /\
  (code <> 0 -> st = unbound).
Proof.
  unfold msi_fpga_probe, ENOMEM.
  destruct (kzalloc_ok env); cbn [negb];
    [|cbn; repeat split; intros; try discriminate; try tauto; try lia;
      repeat match goal with H : _ /\ _ |- _ => destruct H end;
      discriminate].
  destruct (Z.eqb_spec (pci_enable_device_ret env) 0) as [E1|E1]; cbn [negb];
    [|cbn; repeat split; intros; try tauto; try lia].
  destruct (Z.eqb_spec (pci_request_regions_ret env) 0) as [E2|E2];
    cbn [negb]; [|cbn; repeat split; intros; try tauto; try lia].
  destruct (pci_ioremap_bar_ok env); cbn [negb];
    [|cbn; repeat split; intros; try discriminate; try tauto; try lia;
      repeat match goal with H : _ /\ _ |- _ => destruct H end;
      discriminate].
  destruct (Z.eqb_spec (dma_set_mask_ret env) 0) as [E3|E3]; cbn [negb];
    [|cbn; repeat split; intros; try tauto; try lia].
  destruct (dma_alloc_coherent_ok env); cbn [negb];
    [|cbn; repeat split; intros; try discriminate; try tauto; try lia;
      repeat match goal with H : _ /\ _ |- _ => destruct H end;
      discriminate].
  destruct (Z.eqb_spec (request_irq_ret env) 0) as [E4|E4]; cbn [negb];
    [|cbn; repeat split; intros; try tauto; try lia].
  cbn. repeat split; intros; try tauto; try lia.
Qed.
